(** * Antigravity chat mirror: the discovery and live-session engine of
    [server.js], embedded in Rocq.

    The file follows the source top to bottom: the helpers ([hashString]),
    the in-page title filter ([normalizeText], [isGoodTitle]), the protocol
    session ([extractMetadata], [captureCSS], [captureHTML]), the registry
    loops ([discover], [updateSnapshots], [broadcast]) and the HTTP routes
    ([GET /snapshot], [POST /send/:id] with [injectMessage]).

    Conventions.
    - A JavaScript string is the list of its UTF-16 code units ([jsstring]);
      [str.length] is [length] and [str.charCodeAt i] the i-th unit.
    - A JavaScript number that only ever holds an integer below 2^53 is a
      [Z]; the 32-bit conversions of the bitwise operators are written out.
    - The remote side (the inspected windows) is an oracle threaded through
      every [await]: a type [World] with one transition per remote call.
    - Objects that the code shares and mutates (registry entries) live in a
      heap and the maps hold references into it. *)

From Stdlib Require Import ZArith List Bool Lia Ascii String.
From stdpp Require Import base list.
Import ListNotations.

Local Open Scope Z_scope.

(** ** JavaScript strings *)

Definition jsstring := list Z.

Definition is_code_unit (c : Z) : Prop := 0 <= c < 65536.

(** A literal of the source, as code units (the literals are all ASCII). *)
Definition js (s : string) : jsstring :=
  map (fun a => Z.of_nat (nat_of_ascii a)) (list_ascii_of_string s).

Definition jsstring_eqb (a b : jsstring) : bool :=
  bool_decide (a = b).

(** ** Helpers: [hashString] *)

Module Hash.

(** ToInt32: the value modulo 2^32, read as a signed 32-bit integer. *)
Definition to_int32 (z : Z) : Z := (z + 2 ^ 31) mod 2 ^ 32 - 2 ^ 31.

(** [a << n] for [0 <= n < 32]. *)
Definition shl32 (a n : Z) : Z := to_int32 (Z.shiftl (to_int32 a) n).

(** [a & b]. *)
Definition and32 (a b : Z) : Z := to_int32 (Z.land (to_int32 a) (to_int32 b)).

(** One turn of the loop body:
      hash = ((hash << 5) - hash) + char;
      hash = hash & hash;
    The subtraction and the addition are on doubles; their operands are
    below 2^33 in magnitude, so they are exact. *)
Definition hash_step (hash char : Z) : Z :=
  let hash1 := (shl32 hash 5 - hash) + char in
  and32 hash1 hash1.

(** The loop over [str.charCodeAt(i)], from [hash = 0]. *)
Definition hash32 (str : jsstring) : Z := fold_left hash_step str 0.

(** [Number.prototype.toString(36)] on an integer: digits [0-9a-z], most
    significant first, [-] in front of a negative number. *)
Definition digit36 (d : Z) : Z := if d <? 10 then 48 + d else 87 + d.

(** The digit values of [n >= 0], least significant first. A number has no
    more base-36 digits than bits, which bounds the recursion. *)
Fixpoint digits36 (fuel : nat) (n : Z) : list Z :=
  match fuel with
  | O => []
  | S fuel' =>
      (n mod 36) :: (if n / 36 =? 0 then [] else digits36 fuel' (n / 36))
  end.

(** The number a list of digit values stands for, least significant first
    (the inverse of [digits36]). *)
Definition value36 (ds : list Z) : Z := fold_right (fun d acc => d + 36 * acc) 0 ds.

Definition radix36 (n : Z) : jsstring :=
  map digit36 (rev (digits36 (S (Z.to_nat (Z.log2 n))) n)).

Definition toString36 (n : Z) : jsstring :=
  if n <? 0 then 45 :: radix36 (- n) else radix36 n.

Definition hashString (str : jsstring) : jsstring := toString36 (hash32 str).

End Hash.
Export Hash.


(** ** The in-page title filter: [normalizeText] and [isGoodTitle]

    Both functions are part of the SCRIPT text of [extractMetadata] and of
    [captureHTML] (the two copies are identical). *)

Module Title.

(** The class [\s] of a JavaScript regular expression, which is also what
    [String.prototype.trim] strips: WhiteSpace and LineTerminator. *)
Definition is_space (c : Z) : bool :=
  ((9 <=? c) && (c <=? 13)) || (c =? 32) || (c =? 160) || (c =? 5760)
  || ((8192 <=? c) && (c <=? 8202)) || (c =? 8232) || (c =? 8233)
  || (c =? 8239) || (c =? 8287) || (c =? 12288) || (c =? 65279).

(** [.replace(/\s+/g, ' ')]: every maximal run of white space becomes one
    space. [in_run] tells that the previous unit was white space. *)
Fixpoint collapse_spaces (in_run : bool) (s : jsstring) : jsstring :=
  match s with
  | [] => []
  | c :: rest =>
      if is_space c
      then (if in_run then collapse_spaces true rest
            else 32 :: collapse_spaces true rest)
      else c :: collapse_spaces false rest
  end.

Fixpoint trim_start (s : jsstring) : jsstring :=
  match s with
  | [] => []
  | c :: rest => if is_space c then trim_start rest else s
  end.

(** [.trim()] *)
Definition trim (s : jsstring) : jsstring :=
  rev (trim_start (rev (trim_start s))).

(** [(value || '').replace(/\s+/g, ' ').trim()]; a missing value is the
    empty string, for which [value || ''] changes nothing. *)
Definition normalizeText (value : jsstring) : jsstring :=
  trim (collapse_spaces false value).

(** The [bad] expressions use three constructs only: a literal character,
    an optional literal character ([s?]) and the end anchor [$]; all are
    anchored at the start ([^]) and carry the flag [i]. *)
Inductive Atom :=
| Lit (c : Z)
| Opt (c : Z).

Record Regex := { atoms : list Atom; anchored_end : bool }.

(** Canonicalize of the flag [i] (without [u]): upper-casing, except that a
    unit at or above 128 is never mapped to one below 128. The patterns hold
    ASCII letters and spaces only, so just ASCII letters fold. *)
Definition ascii_upper (c : Z) : Z :=
  if (97 <=? c) && (c <=? 122) then c - 32 else c.

Definition ci_eqb (p t : Z) : bool := ascii_upper t =? ascii_upper p.

Definition is_nil (s : jsstring) : bool :=
  match s with [] => true | _ => false end.

(** Backtracking matcher, from the current position. *)
Fixpoint match_atoms (pat : list Atom) (at_end : bool) (text : jsstring) : bool :=
  match pat with
  | [] => if at_end then is_nil text else true
  | Lit p :: pat' =>
      match text with
      | t :: text' => ci_eqb p t && match_atoms pat' at_end text'
      | [] => false
      end
  | Opt p :: pat' =>
      match text with
      | t :: text' => ci_eqb p t && match_atoms pat' at_end text'
      | [] => false
      end || match_atoms pat' at_end text
  end.

(** [re.test(text)] *)
Definition test (re : Regex) (text : jsstring) : bool :=
  match_atoms (atoms re) (anchored_end re) text.

Definition lits (s : string) : list Atom := map Lit (js s).

Definition bad : list Regex :=
  [ {| atoms := lits "new chat"; anchored_end := false |};
    {| atoms := lits "new conversation"; anchored_end := false |};
    {| atoms := lits "past chat" ++ [Opt 115]; anchored_end := false |};
    {| atoms := lits "view all"; anchored_end := false |};
    {| atoms := lits "plan"; anchored_end := false |};
    {| atoms := lits "local"; anchored_end := true |};
    {| atoms := lits "run everything"; anchored_end := false |};
    {| atoms := lits "success"; anchored_end := true |} ].

Definition isGoodTitle (value : jsstring) : bool :=
  let text := normalizeText value in
  if (length text <? 3)%nat || (80 <? length text)%nat then false
  else negb (existsb (fun re => test re text) bad).

(** *** What the filter is meant to decide, in the words of the design *)




End Title.
Export Title.

(** ** Values exchanged with an inspected window *)

(** A target descriptor of [/json/list]. [url] and [title] may be absent
    (they are read with [?.]); the transport URL is what identifies it. *)
Record Target := {
  target_url : option jsstring;
  target_title : option jsstring;
  webSocketDebuggerUrl : jsstring
}.

(** [{ ...t, port }] *)
Record Candidate := { target : Target; port : Z }.

(** An execution context announced by [Runtime.executionContextCreated];
    only its [id] is read. *)
Record Context := { ctx_id : Z }.

(** [app: 'antigravity'] or [app: 'cursor'] *)
Inductive App := Antigravity | Cursor.

(** What the metadata SCRIPT returns together with [found: true]. *)
Record Found := {
  found_app : App;
  found_rootElementId : option jsstring;
  found_rootSelector : jsstring;
  found_chatTitle : jsstring;
  found_isActive : bool
}.

(** One [Runtime.evaluate] of the metadata SCRIPT in one context: the value
    has [found] set, or it has not ([{found: false}], or no value at all),
    or the [await] throws (the call is rejected, or the reply has no
    [result] to read from). *)
Inductive Probe :=
| ProbeFound (v : Found)
| ProbeNotFound
| ProbeThrows.

(** [{ ...value, contextId }]: the result of [extractMetadata]. *)
Record Meta := { meta_value : Found; contextId : Z }.

(** The entry's metadata object. *)
Record Metadata := {
  windowTitle : option jsstring;
  chatTitle : jsstring;
  isActive : bool;
  app : App;
  rootElementId : option jsstring;
  rootSelector : jsstring
}.

(** The value of the capture SCRIPT. [title] is a string or [null]. *)
Record Snap := {
  html : jsstring;
  bodyBg : jsstring;
  bodyColor : jsstring;
  title : option jsstring
}.

(** One [Runtime.evaluate] of the capture SCRIPT: a snapshot, or a value
    that is missing or carries [error], or a throwing [await]. *)
Inductive Capture :=
| Captured (snap : Snap)
| CaptureNoValue
| CaptureThrows.

(** [connectCDP]: the socket never opens (the function throws before a
    session exists), or it opens and [Runtime.enable] is rejected (the
    function throws and the open socket is left behind), or the session is
    returned with the contexts announced in the meantime. *)
Inductive Dial :=
| DialRefused
| DialEnableRejected
| DialOpened (announced : list Context).

(** An exception value; [e.message] is all that is read from it. *)
Record JsError := { message : option jsstring }.

(** The outcome of an [await]: a value, or a thrown exception. *)
Inductive Completion (A : Type) :=
| Normal (a : A)
| Throw (e : JsError).
Arguments Normal {A} a.
Arguments Throw {A} e.

Definition bind {A B} (c : Completion A) (k : A -> Completion B) : Completion B :=
  match c with
  | Normal a => k a
  | Throw e => Throw e
  end.

(** [try { body } catch (e) { handler }] *)
Definition try_catch {A} (body : Completion A) (handler : JsError -> Completion A)
  : Completion A :=
  match body with
  | Normal a => Normal a
  | Throw e => handler e
  end.

(** What [injectMessage] returns, and the body of a failing reply. *)
Record InjectResult := { ok : bool; reason : option jsstring }.

(** The reply [res] to the injection call: [undefined] (a message with the
    right id and neither [error] nor [result]), or an object whose [result]
    may be missing and whose [result.value] may be missing or falsy. *)
Record RemoteObject := { value : option InjectResult }.

Inductive Reply :=
| ReplyUndefined
| ReplyObject (result : option RemoteObject).

(** ** The remote side

    Every remote interaction is a transition of an abstract [World]; what a
    window answers may change from one call to the next. *)
Class Remote := {
  World : Type;
  (** [getJson('http://127.0.0.1:' + port + '/json/list')]; any failure
      (refused, timeout, unparsable) is the empty list. *)
  getJson : World -> Z -> list Target * World;
  (** [connectCDP(url)] *)
  connectCDP : World -> jsstring -> Dial * World;
  (** whether the peer still holds socket [ws] open *)
  peer_open : World -> nat -> bool;
  (** the metadata SCRIPT on socket [ws] in context [contextId] *)
  evaluate_metadata : World -> nat -> Z -> Probe * World;
  (** the stylesheet SCRIPT, with [scopeAll]; [None]: rejected or no [css] *)
  evaluate_css : World -> nat -> Z -> bool -> option jsstring * World;
  (** the capture SCRIPT, built from the entry's metadata *)
  evaluate_html : World -> nat -> Z -> Metadata -> Capture * World;
  (** the injection SCRIPT, built from the text; [contextId] may be null *)
  evaluate_inject : World -> nat -> option Z -> jsstring -> Completion Reply * World
}.

(** ** Protocol session *)

Section Session.
Context {R : Remote}.

(** [{ ws, call, contexts, rootContextId }]; [ws] is a handle into the
    socket table, [rootContextId] is [null] or a number. The context list is
    read as it stands when a scan starts. *)
Record CDP := {
  ws : nat;
  contexts : list Context;
  rootContextId : option Z
}.

(** [if (x)] on a context id or [null]: [null] and [0] are falsy. *)
Definition truthy_id (x : option Z) : option Z :=
  match x with
  | Some c => if c =? 0 then None else Some c
  | None => None
  end.

Definition set_rootContextId (cdp : CDP) (x : option Z) : CDP :=
  {| ws := ws cdp; contexts := contexts cdp; rootContextId := x |}.

(** The loop [for (const ctx of cdp.contexts)] of [extractMetadata]: a
    context whose probe throws or finds nothing is passed over. *)
Fixpoint scan_contexts (sock : nat) (ctxs : list Context) (w : World)
  : option Meta * World :=
  match ctxs with
  | [] => (None, w)
  | ctx :: rest =>
      let (probe, w1) := evaluate_metadata w sock (ctx_id ctx) in
      match probe with
      | ProbeFound v => (Some {| meta_value := v; contextId := ctx_id ctx |}, w1)
      | ProbeNotFound | ProbeThrows => scan_contexts sock rest w1
      end
  end.

(** [extractMetadata(cdp)]: the result ([null] is [None]), the session
    object after the call (its [rootContextId] may have been reset) and the
    world. *)
Definition extractMetadata (cdp : CDP) (w : World) : option Meta * CDP * World :=
  match truthy_id (rootContextId cdp) with
  | Some cached =>
      let (probe, w1) := evaluate_metadata w (ws cdp) cached in
      match probe with
      | ProbeFound v =>
          (Some {| meta_value := v; contextId := cached |}, cdp, w1)
      | ProbeNotFound =>
          let (res, w2) := scan_contexts (ws cdp) (contexts cdp) w1 in
          (res, cdp, w2)
      | ProbeThrows =>
          let cdp' := set_rootContextId cdp None in
          let (res, w2) := scan_contexts (ws cdp') (contexts cdp') w1 in
          (res, cdp', w2)
      end
  | None =>
      let (res, w1) := scan_contexts (ws cdp) (contexts cdp) w in
      (res, cdp, w1)
  end.

(** [if (meta.contextId) cdp.rootContextId = meta.contextId], the
    statement both branches of [discover] run on a result. *)
Definition remember_context (cdp : CDP) (meta : Meta) : CDP :=
  match truthy_id (Some (contextId meta)) with
  | Some c => set_rootContextId cdp (Some c)
  | None => cdp
  end.

(** [captureCSS(cdp, { scopeSelector: '#cascade', scopeAll })]: [null]
    without a root context, else the stylesheet or [''] on any failure. *)
Definition captureCSS (cdp : CDP) (scopeAll : bool) (w : World)
  : option jsstring * World :=
  match truthy_id (rootContextId cdp) with
  | None => (None, w)
  | Some c =>
      let (res, w1) := evaluate_css w (ws cdp) c scopeAll in
      (Some (match res with Some text => text | None => [] end), w1)
  end.

(** [captureHTML(cdp, metadata)] *)
Definition captureHTML (cdp : CDP) (metadata : Metadata) (w : World)
  : option Snap * World :=
  match truthy_id (rootContextId cdp) with
  | None => (None, w)
  | Some c =>
      let (res, w1) := evaluate_html w (ws cdp) c metadata in
      match res with
      | Captured snap => (Some snap, w1)
      | CaptureNoValue | CaptureThrows => (None, w1)
      end
  end.

(** [injectMessage(cdp, text)]: the [try] block reads [res.result?.value],
    which throws on an undefined [res]; the [catch] turns every exception
    into a failure value. *)
Definition injectMessage (cdp : CDP) (text : jsstring) (w : World)
  : Completion InjectResult * World :=
  let (called, w1) := evaluate_inject w (ws cdp) (rootContextId cdp) text in
  (try_catch
     (bind called (fun res =>
      bind (match res with
            | ReplyUndefined => Throw {| message := Some (js "Cannot read properties of undefined (reading 'result')") |}
            | ReplyObject result => Normal result
            end) (fun result =>
      Normal (match result with
              | Some {| value := Some v |} => v
              | _ => {| ok := false; reason := None |}
              end))))
     (fun e => Normal {| ok := false; reason := message e |}),
   w1).

(** *** The scan, as a relation (used to state what it returns) *)

(** [passed_over sock ctxs w w']: probing the contexts [ctxs] in order from
    world [w] reports found for none of them and ends in [w']. *)
Inductive passed_over (sock : nat) : list Context -> World -> World -> Prop :=
| passed_nil w : passed_over sock [] w w
| passed_cons ctx rest w w1 w2 probe :
    evaluate_metadata w sock (ctx_id ctx) = (probe, w1) ->
    (forall v, probe <> ProbeFound v) ->
    passed_over sock rest w1 w2 ->
    passed_over sock (ctx :: rest) w w2.

(** [first_found sock ctxs w meta w']: [meta] comes from the first context
    of [ctxs] whose probe reports found. *)
Definition first_found (sock : nat) (ctxs : list Context) (w : World)
    (meta : Meta) (w' : World) : Prop :=
  exists before ctx after w1,
    ctxs = before ++ ctx :: after /\
    passed_over sock before w w1 /\
    evaluate_metadata w1 sock (ctx_id ctx) = (ProbeFound (meta_value meta), w') /\
    contextId meta = ctx_id ctx.

(** What a scan returns: the first context that reports found, or nothing
    when every context was passed over. *)
Definition scan_outcome (sock : nat) (ctxs : list Context) (w : World)
    (res : option Meta) (w' : World) : Prop :=
  match res with
  | Some meta => first_found sock ctxs w meta w'
  | None => passed_over sock ctxs w w'
  end.

End Session.

(** ** A JavaScript [Map] keyed by strings

    Iteration follows insertion order, and [set] on a key that is present
    keeps the key's place. *)

Module JsMap.

Definition t (V : Type) := list (jsstring * V).

Fixpoint get {V} (m : t V) (k : jsstring) : option V :=
  match m with
  | [] => None
  | (k', v) :: rest => if jsstring_eqb k' k then Some v else get rest k
  end.

Definition has {V} (m : t V) (k : jsstring) : bool :=
  match get m k with Some _ => true | None => false end.

Fixpoint set {V} (m : t V) (k : jsstring) (v : V) : t V :=
  match m with
  | [] => [(k, v)]
  | (k', v') :: rest =>
      if jsstring_eqb k' k then (k', v) :: rest else (k', v') :: set rest k v
  end.

Definition size {V} (m : t V) : nat := length m.

Definition keys {V} (m : t V) : list jsstring := map fst m.

Definition values {V} (m : t V) : list V := map snd m.

End JsMap.

(** ** The registry and its two loops *)

Section Registry.
Context {R : Remote}.

(** A WebSocket the engine created: the URL it was opened on and whether
    the engine has called [close()] on it. *)
Record Socket := { sock_url : jsstring; sock_closed : bool }.

(** A registry entry. *)
Record Cascade := {
  cascade_id : jsstring;
  cdp : CDP;
  metadata : Metadata;
  snapshot : option Snap;
  css : option jsstring;
  snapshotHash : option jsstring
}.

(** [{ id, title, window, active }] of the list broadcast. *)
Record ListItem := {
  item_id : jsstring;
  item_title : jsstring;
  item_window : option jsstring;
  item_active : bool
}.

(** The two messages handed to [broadcast]. *)
Inductive Msg :=
| cascade_list (items : list ListItem)
| snapshot_update (cascadeId : jsstring).

(** The state of the process: the remote world, the sockets created so far
    (a socket's handle is its index), the heap of entry objects, the global
    [cascades] (identity to reference) and the messages broadcast so far,
    oldest first. *)
Record State := {
  world : World;
  sockets : list Socket;
  heap : list Cascade;
  cascades : JsMap.t nat;
  outbox : list Msg
}.

Definition initial (w : World) : State :=
  {| world := w; sockets := []; heap := []; cascades := []; outbox := [] |}.

Definition set_world (st : State) (w : World) : State :=
  {| world := w; sockets := sockets st; heap := heap st;
     cascades := cascades st; outbox := outbox st |}.

Definition set_sockets (st : State) (s : list Socket) : State :=
  {| world := world st; sockets := s; heap := heap st;
     cascades := cascades st; outbox := outbox st |}.

Definition set_heap (st : State) (h : list Cascade) : State :=
  {| world := world st; sockets := sockets st; heap := h;
     cascades := cascades st; outbox := outbox st |}.

Definition set_cascades (st : State) (m : JsMap.t nat) : State :=
  {| world := world st; sockets := sockets st; heap := heap st;
     cascades := m; outbox := outbox st |}.

(** [broadcast(msg)], once [main] has created the subscriber server: the
    message goes to every open subscriber. *)
Definition broadcast (msg : Msg) (st : State) : State :=
  {| world := world st; sockets := sockets st; heap := heap st;
     cascades := cascades st; outbox := outbox st ++ [msg] |}.

(** [Array.from(cascades.values())] *)
Definition registry_values (st : State) : list Cascade :=
  omap (fun ref => heap st !! ref) (JsMap.values (cascades st)).

Definition list_item (c : Cascade) : ListItem :=
  {| item_id := cascade_id c;
     item_title := chatTitle (metadata c);
     item_window := windowTitle (metadata c);
     item_active := isActive (metadata c) |}.

Definition broadcastCascadeList (st : State) : State :=
  broadcast (cascade_list (map list_item (registry_values st))) st.

(** *** Sockets *)

(** [ws.readyState === WebSocket.OPEN] *)
Definition readyState_open (st : State) (sock : nat) : bool :=
  match sockets st !! sock with
  | Some s => negb (sock_closed s) && peer_open (world st) sock
  | None => false
  end.

(** [new WebSocket(url)], once open: the new socket's handle is the next
    index. *)
Definition open_socket (url : jsstring) (st : State) : State :=
  set_sockets st (sockets st ++ [{| sock_url := url; sock_closed := false |}]).

(** [ws.close()] *)
Definition close_socket (sock : nat) (st : State) : State :=
  set_sockets st
    (alter (fun s => {| sock_url := sock_url s; sock_closed := true |})
       sock (sockets st)).

(** *** [discover] *)

Definition PORTS : list Z := [9000; 9001; 9002; 9003].

Fixpoint starts_with (needle hay : jsstring) : bool :=
  match needle, hay with
  | [], _ => true
  | _ :: _, [] => false
  | n :: needle', h :: hay' => (n =? h) && starts_with needle' hay'
  end.

(** [hay.includes(needle)] *)
Fixpoint includes (needle hay : jsstring) : bool :=
  starts_with needle hay
  || match hay with
     | [] => false
     | _ :: hay' => includes needle hay'
     end.

(** [t.url?.includes('workbench.html') || t.title?.includes('workbench')] *)
Definition is_workbench (t : Target) : bool :=
  match target_url t with
  | Some u => includes (js "workbench.html") u
  | None => false
  end
  || match target_title t with
     | Some s => includes (js "workbench") s
     | None => false
     end.

(** Step 1. The ports are queried together; the model takes the answers in
    the order of [PORTS]. *)
Fixpoint find_targets (ports : list Z) (w : World) : list Candidate * World :=
  match ports with
  | [] => ([], w)
  | p :: rest =>
      let (list, w1) := getJson w p in
      let workbenches := filter (fun t => is_workbench t = true) list in
      let (more, w2) := find_targets rest w1 in
      (map (fun t => {| target := t; port := p |}) workbenches ++ more, w2)
  end.

(** What the loop of step 2 did with one candidate: refreshed the entry it
    already had, added a fresh one, connected and found no chat (the socket
    is closed again), or failed to connect. *)
Inductive Verdict := Refreshed | Added | Discarded | Unreachable.

Definition identified (v : Verdict) : bool :=
  match v with
  | Refreshed | Added => true
  | Discarded | Unreachable => false
  end.

(** [{ ...existing.metadata, ...rest }], [rest] being the result without
    [found] and [contextId]: only [windowTitle] survives. *)
Definition refresh_metadata (old : Metadata) (v : Found) : Metadata :=
  {| windowTitle := windowTitle old;
     chatTitle := found_chatTitle v;
     isActive := found_isActive v;
     app := found_app v;
     rootElementId := found_rootElementId v;
     rootSelector := found_rootSelector v |}.

Definition is_cursor (a : App) : bool :=
  match a with Cursor => true | Antigravity => false end.

(** The [try] block "New connection" with its empty [catch]. *)
Definition connect_fresh (c : Candidate) (ident : jsstring)
    (newCascades : JsMap.t nat) (st : State) : Verdict * JsMap.t nat * State :=
  let url := webSocketDebuggerUrl (target c) in
  let (dial, w1) := connectCDP (world st) url in
  match dial with
  | DialRefused => (Unreachable, newCascades, set_world st w1)
  | DialEnableRejected =>
      (Unreachable, newCascades, open_socket url (set_world st w1))
  | DialOpened announced =>
      let sock := length (sockets st) in
      let st1 := open_socket url (set_world st w1) in
      let cdp0 := {| ws := sock; contexts := announced; rootContextId := None |} in
      let '(meta, cdp1, w2) := extractMetadata cdp0 w1 in
      match meta with
      | Some meta =>
          let cdp2 := remember_context cdp1 meta in
          let v := meta_value meta in
          let (sheet, w3) := captureCSS cdp2 (is_cursor (found_app v)) w2 in
          let cascade :=
            {| cascade_id := ident;
               cdp := cdp2;
               metadata :=
                 {| windowTitle := target_title (target c);
                    chatTitle := found_chatTitle v;
                    isActive := found_isActive v;
                    app := found_app v;
                    rootElementId := found_rootElementId v;
                    rootSelector := found_rootSelector v |};
               snapshot := None;
               css := sheet;
               snapshotHash := None |} in
          let ref := length (heap st1) in
          (Added, JsMap.set newCascades ident ref,
           set_heap (set_world st1 w3) (heap st1 ++ [cascade]))
      | None =>
          (Discarded, newCascades, close_socket sock (set_world st1 w2))
      end
  end.

(** [hashString(target.webSocketDebuggerUrl)] *)
Definition ident_of (c : Candidate) : jsstring :=
  hashString (webSocketDebuggerUrl (target c)).

(** The body of the loop of step 2, for one candidate. The entry object is
    updated in the heap, so the old map and the new one see the change. *)
Definition reconcile_candidate (c : Candidate) (newCascades : JsMap.t nat)
    (st : State) : Verdict * JsMap.t nat * State :=
  let ident := ident_of c in
  match JsMap.get (cascades st) ident with
  | Some ref =>
      match heap st !! ref with
      | Some existing =>
          if readyState_open st (ws (cdp existing)) then
            let '(meta, cdp1, w1) := extractMetadata (cdp existing) (world st) in
            match meta with
            | Some meta =>
                let existing' :=
                  {| cascade_id := cascade_id existing;
                     cdp := remember_context cdp1 meta;
                     metadata := refresh_metadata (metadata existing) (meta_value meta);
                     snapshot := snapshot existing;
                     css := css existing;
                     snapshotHash := snapshotHash existing |} in
                (Refreshed, JsMap.set newCascades ident ref,
                 set_heap (set_world st w1) (<[ref := existing']> (heap st)))
            | None =>
                let existing' :=
                  {| cascade_id := cascade_id existing;
                     cdp := cdp1;
                     metadata := metadata existing;
                     snapshot := snapshot existing;
                     css := css existing;
                     snapshotHash := snapshotHash existing |} in
                connect_fresh c ident newCascades
                  (set_heap (set_world st w1) (<[ref := existing']> (heap st)))
            end
          else connect_fresh c ident newCascades st
      | None => connect_fresh c ident newCascades st
      end
  | None => connect_fresh c ident newCascades st
  end.

(** Step 2, with the trace of what happened to each candidate. *)
Fixpoint reconcile (allTargets : list Candidate) (newCascades : JsMap.t nat)
    (st : State) : list (jsstring * Verdict) * JsMap.t nat * State :=
  match allTargets with
  | [] => ([], newCascades, st)
  | c :: rest =>
      let '(verdict, newCascades1, st1) := reconcile_candidate c newCascades st in
      let '(trace, newCascades2, st2) := reconcile rest newCascades1 st1 in
      ((ident_of c, verdict) :: trace,
       newCascades2, st2)
  end.

(** Step 3: close the transport of every old entry whose key is not in the
    new map. *)
Fixpoint cleanup (old : JsMap.t nat) (newCascades : JsMap.t nat) (st : State)
  : State :=
  match old with
  | [] => st
  | (ident, ref) :: rest =>
      let st1 :=
        if JsMap.has newCascades ident then st
        else match heap st !! ref with
             | Some c => close_socket (ws (cdp c)) st
             | None => st
             end in
      cleanup rest newCascades st1
  end.

(** One pass of [discover], with the trace of step 2. *)
Definition discover_traced (st : State) : list (jsstring * Verdict) * State :=
  let (allTargets, w1) := find_targets PORTS (world st) in
  let '(trace, newCascades, st1) := reconcile allTargets [] (set_world st w1) in
  let st2 := cleanup (cascades st1) newCascades st1 in
  let changed := negb (JsMap.size (cascades st2) =? JsMap.size newCascades)%nat in
  let st3 := set_cascades st2 newCascades in
  (trace, if changed then broadcastCascadeList st3 else st3).

Definition discover (st : State) : State := snd (discover_traced st).

(** The identities a trace marks as identified. *)
Definition identified_in (trace : list (jsstring * Verdict)) : list jsstring :=
  map fst (filter (fun entry => identified (snd entry) = true) trace).


(** *** [updateSnapshots] *)

Definition store_snapshot (c : Cascade) (snap : Snap) (hash : jsstring) : Cascade :=
  {| cascade_id := cascade_id c; cdp := cdp c; metadata := metadata c;
     snapshot := Some snap; css := css c; snapshotHash := Some hash |}.

Definition set_chatTitle (c : Cascade) (t : jsstring) : Cascade :=
  {| cascade_id := cascade_id c; cdp := cdp c;
     metadata :=
       {| windowTitle := windowTitle (metadata c);
          chatTitle := t;
          isActive := isActive (metadata c);
          app := app (metadata c);
          rootElementId := rootElementId (metadata c);
          rootSelector := rootSelector (metadata c) |};
     snapshot := snapshot c; css := css c; snapshotHash := snapshotHash c |}.

(** [snap.title && snap.title !== c.metadata.chatTitle] *)
Definition title_changed (snap : Snap) (c : Cascade) : option jsstring :=
  match title snap with
  | Some t =>
      if negb (is_nil t) && negb (jsstring_eqb t (chatTitle (metadata c)))
      then Some t else None
  | None => None
  end.

(** What follows [await captureHTML(...)] for the entry at [ref], given the
    capture's result. It runs in one piece. *)
Definition apply_capture (ref : nat) (c : Cascade) (snap : option Snap)
    (st : State) : State :=
  match snap with
  | None => st
  | Some snap =>
      let hash := hashString (html snap) in
      if bool_decide (snapshotHash c = Some hash) then st
      else
        let c1 := store_snapshot c snap hash in
        let st1 := set_heap st (<[ref := c1]> (heap st)) in
        let st2 :=
          match title_changed snap c1 with
          | Some t =>
              broadcastCascadeList
                (set_heap st1 (<[ref := set_chatTitle c1 t]> (heap st1)))
          | None => st1
          end in
        broadcast (snapshot_update (cascade_id c)) st2
  end.

(** The poll of one entry: the function mapped over the entries. *)
Definition poll_cascade (ref : nat) (st : State) : State :=
  match heap st !! ref with
  | None => st
  | Some c =>
      let (snap, w1) := captureHTML (cdp c) (metadata c) (world st) in
      apply_capture ref c snap (set_world st w1)
  end.

(** [updateSnapshots]: the captures are started together; the model lets
    them complete in registry order. *)
Definition updateSnapshots (st : State) : State :=
  fold_left (fun st ref => poll_cascade ref st) (JsMap.values (cascades st)) st.

End Registry.

(** ** HTTP routes *)

Section Routes.
Context {R : Remote}.

(** The JSON bodies the routes below send. *)
Inductive Body :=
| json_error (error : jsstring)          (* { error } *)
| json_snapshot (snap : Snap)            (* the stored snapshot *)
| json_success                           (* { success: true } *)
| json_result (result : InjectResult).   (* what injectMessage returned *)

(** [res.status(s).json(b)]; [res.json(b)] alone has status 200. *)
Record Response := { status : Z; body : Body }.

(** [cascades.get(id)], as the entry object. *)
Definition registry_get (st : State) (ident : jsstring) : option Cascade :=
  match JsMap.get (cascades st) ident with
  | Some ref => heap st !! ref
  | None => None
  end.

(** [app.get('/snapshot')]:
      Array.from(cascades.values()).find(c => c.metadata.isActive)
        || cascades.values().next().value *)
Definition select_active (st : State) : option Cascade :=
  match find (fun c => isActive (metadata c)) (registry_values st) with
  | Some c => Some c
  | None => head (registry_values st)
  end.

Definition get_snapshot (st : State) : Response :=
  match select_active st with
  | Some c =>
      match snapshot c with
      | Some snap => {| status := 200; body := json_snapshot snap |}
      | None => {| status := 503; body := json_error (js "No snapshot") |}
      end
  | None => {| status := 503; body := json_error (js "No snapshot") |}
  end.

(** [app.post('/send/:id')], with [req.params.id] and [req.body.message].
    The handler is an [async] function: a [Throw] here is a rejection that
    nothing handles. *)
Definition post_send (ident message : jsstring) (st : State)
  : Completion Response * State :=
  match registry_get st ident with
  | None =>
      (Normal {| status := 404; body := json_error (js "Cascade not found") |}, st)
  | Some c =>
      let (outcome, w1) := injectMessage (cdp c) message (world st) in
      (bind outcome (fun result =>
         if ok result
         then Normal {| status := 200; body := json_success |}
         else Normal {| status := 500; body := json_result result |}),
       set_world st w1)
  end.


End Routes.

(** ** One live session per identity *)

Section Sessions.
Context {R : Remote}.

(** The sockets the engine created for the identity [ident] that are still
    open, by handle. *)
Definition is_live (st : State) (ident : jsstring) (sock : nat) : bool :=
  readyState_open st sock
  && match sockets st !! sock with
     | Some s => jsstring_eqb (hashString (sock_url s)) ident
     | None => false
     end.

Definition live_sockets (st : State) (ident : jsstring) : list nat :=
  filter (fun sock => is_live st ident sock = true) (seq 0 (length (sockets st))).

(** Whenever the registry holds an entry for an identity, the entry's own
    transport is the only open socket of that identity. *)
Definition one_session_per_identity (st : State) : Prop :=
  forall ident c sock,
    registry_get st ident = Some c ->
    In sock (live_sockets st ident) ->
    sock = ws (cdp c).

End Sessions.

(** ** Scripted worlds

    A world given by the answers it will make, in order: one listing of
    port 9000 per pass (no other port answers), one entry per metadata
    probe and one per capture. Every connection opens and announces
    context 1, no peer hangs up, a stylesheet call yields nothing and an
    injection call reports success. *)

Module Scripted.

Record Script := {
  listings : list (list Target);
  probes : list Probe;
  captures : list Capture
}.

Definition answer_getJson (w : Script) (p : Z) : list Target * Script :=
  if p =? 9000 then
    (match listings w with l :: _ => l | [] => [] end,
     {| listings := tail (listings w); probes := probes w; captures := captures w |})
  else ([], w).

Definition answer_metadata (w : Script) (sock : nat) (contextId : Z)
  : Probe * Script :=
  (match probes w with p :: _ => p | [] => ProbeNotFound end,
   {| listings := listings w; probes := tail (probes w); captures := captures w |}).

Definition answer_html (w : Script) (sock : nat) (contextId : Z) (m : Metadata)
  : Capture * Script :=
  (match captures w with c :: _ => c | [] => CaptureNoValue end,
   {| listings := listings w; probes := probes w; captures := tail (captures w) |}).

Definition remote : Remote :=
  {| World := Script;
     getJson := answer_getJson;
     connectCDP := fun w _ => (DialOpened [{| ctx_id := 1 |}], w);
     peer_open := fun _ _ => true;
     evaluate_metadata := answer_metadata;
     evaluate_css := fun w _ _ _ => (None, w);
     evaluate_html := answer_html;
     evaluate_inject := fun w _ _ _ =>
       (Normal (ReplyObject (Some {| value := Some {| ok := true; reason := None |} |})), w) |}.

End Scripted.

(** *** Scenes *)

Definition chat_found : Found :=
  {| found_app := Antigravity;
     found_rootElementId := Some (js "cascade");
     found_rootSelector := js "#cascade";
     found_chatTitle := js "Fix bug";
     found_isActive := true |}.

(** A session whose cached context 7 has gone stale and which knows the
    contexts 3 and 5: the probe of 7 throws, 3 holds no chat, 5 does. *)
Definition stale_session : CDP :=
  {| ws := 0; contexts := [{| ctx_id := 3 |}; {| ctx_id := 5 |}];
     rootContextId := Some 7 |}.

Definition stale_world : Scripted.Script :=
  {| Scripted.listings := [];
     Scripted.probes := [ProbeThrows; ProbeNotFound; ProbeFound chat_found];
     Scripted.captures := [] |}.


Definition url_a : jsstring := js "ws://127.0.0.1:9000/devtools/page/A".
Definition url_b : jsstring := js "ws://127.0.0.1:9000/devtools/page/B".

Definition window (url : jsstring) : Target :=
  {| target_url := Some (js "vscode-file://vscode-app/out/vs/code/electron-sandbox/workbench/workbench.html");
     target_title := Some (js "project - Antigravity");
     webSocketDebuggerUrl := url |}.

(** Two passes; window A is listed in the first and window B, in its
    place, in the second. Both show a chat. *)
Definition swap_world : Scripted.Script :=
  {| Scripted.listings := [[window url_a]; [window url_b]];
     Scripted.probes := [ProbeFound chat_found; ProbeFound chat_found];
     Scripted.captures := [] |}.

(** Two passes over the same window A, which shows its chat throughout. *)
Definition steady_world : Scripted.Script :=
  {| Scripted.listings := [[window url_a]; [window url_a]];
     Scripted.probes := [ProbeFound chat_found; ProbeFound chat_found];
     Scripted.captures := [] |}.

(** Two passes over the same window A. The second pass finds no chat over
    the session it holds (the probe of the cached context, then the scan of
    the one known context), and finds it over a fresh connection. *)
Definition reload_world : Scripted.Script :=
  {| Scripted.listings := [[window url_a]; [window url_a]];
     Scripted.probes :=
       [ProbeFound chat_found; ProbeNotFound; ProbeNotFound; ProbeFound chat_found];
     Scripted.captures := [] |}.

(** The process after one and after two passes of [discover] in a scripted
    world, from an empty registry. *)
Definition first_pass (w : Scripted.Script) : State (R := Scripted.remote) :=
  discover (R := Scripted.remote) (initial (R := Scripted.remote) w).

Definition second_pass (w : Scripted.Script) : State (R := Scripted.remote) :=
  discover (R := Scripted.remote) (first_pass w).

(** The two snapshots of the polling scenario: [<div id="root">hello</div>]
    and the same with [hello!] (34 is the double quote). *)
Definition html_hello : jsstring :=
  js "<div id=" ++ [34] ++ js "root" ++ [34] ++ js ">hello</div>".

Definition html_hello_bang : jsstring :=
  js "<div id=" ++ [34] ++ js "root" ++ [34] ++ js ">hello!</div>".

Definition snap_of (h : jsstring) (t : option jsstring) : Snap :=
  {| html := h; bodyBg := js "rgb(30, 30, 30)";
     bodyColor := js "rgb(204, 204, 204)"; title := t |}.

(** One window identified with the title "Fix bug"; three polls capture
    [hello], [hello] again, then [hello!]. *)
Definition polling_world : Scripted.Script :=
  {| Scripted.listings := [[window url_a]];
     Scripted.probes := [ProbeFound chat_found];
     Scripted.captures :=
       [Captured (snap_of html_hello None);
        Captured (snap_of html_hello None);
        Captured (snap_of html_hello_bang None)] |}.

(** One window identified with the title "Fix bug" whose first capture
    carries the title "Refactor parser". *)
Definition retitled_world : Scripted.Script :=
  {| Scripted.listings := [[window url_a]];
     Scripted.probes := [ProbeFound chat_found];
     Scripted.captures :=
       [Captured (snap_of html_hello (Some (js "Refactor parser")))] |}.

Definition polls (n : nat) (w : Scripted.Script) : State (R := Scripted.remote) :=
  Nat.iter n (updateSnapshots (R := Scripted.remote)) (first_pass w).

(** A registry of three entries in insertion order: an inactive one with a
    snapshot, an active one with a snapshot, an active one without. *)
Definition entry (ident : string) (active : bool) (snap : option Snap) : Cascade :=
  {| cascade_id := js ident;
     cdp := {| ws := 0; contexts := []; rootContextId := Some 1 |};
     metadata :=
       {| windowTitle := None; chatTitle := js "Agent"; isActive := active;
          app := Antigravity; rootElementId := Some (js "cascade");
          rootSelector := js "#cascade" |};
     snapshot := snap;
     css := None;
     snapshotHash := option_map (fun s => hashString (html s)) snap |}.

Definition quiet_world : Scripted.Script :=
  {| Scripted.listings := []; Scripted.probes := []; Scripted.captures := [] |}.

(** A state of the process in a scripted world, with nothing sent yet. *)
Definition scripted_state (w : Scripted.Script) (socks : list Socket)
    (objects : list Cascade) (registry : JsMap.t nat) : State (R := Scripted.remote) :=
  @Build_State Scripted.remote w socks objects registry [].

Definition three_entries : State (R := Scripted.remote) :=
  scripted_state quiet_world []
    [entry "k1" false (Some (snap_of html_hello None));
     entry "k2" true (Some (snap_of html_hello_bang None));
     entry "k3" true None]
    [(js "k1", 0%nat); (js "k2", 1%nat); (js "k3", 2%nat)].

(** ** More on the helpers *)

(** A character of a base-36 numeral: [0-9] or [a-z]. *)
Definition is_base36_digit (c : Z) : Prop := 48 <= c <= 57 \/ 97 <= c <= 122.

(** ** Title inference of the in-page scripts

    The scripts read the page through selectors; what a selector finds is
    an input here: the [textContent] of the element, or [None] when there
    is no such element. The rest follows the SCRIPT text. *)

Module Infer.

(** [a || b] on values that are a string or [null]/[undefined]: the empty
    string is falsy too. *)
Definition or_else (a b : option jsstring) : option jsstring :=
  match a with
  | Some (_ :: _) => a
  | Some [] | None => b
  end.

(** [getExplicitAntigravityTitle] and [getExplicitCursorTitle]: the label
    element's text, kept when it is a good title. *)
Definition explicit_title (label : option jsstring) : option jsstring :=
  let text := normalizeText (match label with Some t => t | None => [] end) in
  if isGoodTitle text then Some text else None.

(** [pickFirstMessage(root)], for a root that exists: [human] is the text of
    the node taken from the first human message, [first] the text of the
    first node matched by the generic selector. *)
Definition pickFirstMessage (human first : option jsstring) : option jsstring :=
  let generic :=
    match first with
    | Some t => let text := normalizeText t in
                if isGoodTitle text then Some text else None
    | None => None
    end in
  match human with
  | Some t => let text := normalizeText t in
              if isGoodTitle text then Some text else generic
  | None => generic
  end.

(** The loop over [possibleTitleSelectors]: the first element whose text
    has more than 2 and fewer than 50 characters gives the title, trimmed. *)
Fixpoint heading_title (found : list (option jsstring)) : option jsstring :=
  match found with
  | [] => None
  | Some t :: rest =>
      if (2 <? length t)%nat && (length t <? 50)%nat then Some (trim t)
      else heading_title rest
  | None :: rest => heading_title rest
  end.

(** [chatTitle: explicitTitle || inferred || chatTitle || 'Agent'] of the
    antigravity shape. *)
Definition antigravity_chatTitle (label human first : option jsstring)
    (headings : list (option jsstring)) : jsstring :=
  match or_else (or_else (or_else (explicit_title label)
                                  (pickFirstMessage human first))
                         (heading_title headings))
                (Some (js "Agent")) with
  | Some t => t
  | None => []
  end.

(** [s.split('\n')[0]] *)
Fixpoint first_line (s : jsstring) : jsstring :=
  match s with
  | [] => []
  | c :: rest => if c =? 10 then [] else c :: first_line rest
  end.

(** [x?.textContent?.trim()] *)
Definition trimmed (text : option jsstring) : option jsstring :=
  match text with Some t => Some (trim t) | None => None end.

(** The title of the cursor shape:
      inferredTitle = (explicitTitle || historyTitle || inferredMessage
                       || titleText || '').split('\n')[0].trim();
      chatTitle: inferredTitle && inferredTitle.length > 1
                   ? inferredTitle : 'Cursor Chat' *)
Definition cursor_chatTitle (label history human first header : option jsstring)
  : jsstring :=
  let chosen :=
    or_else (or_else (or_else (or_else (explicit_title label) (trimmed history))
                              (pickFirstMessage human first))
                     (trimmed header))
            (Some []) in
  let inferredTitle :=
    trim (first_line (match chosen with Some t => t | None => [] end)) in
  if negb (is_nil inferredTitle) && (1 <? length inferredTitle)%nat
  then inferredTitle else js "Cursor Chat".

(** [title: explicitTitle || pickFirstMessage(root)] of the capture SCRIPT;
    [null] when neither gives a title. *)
Definition capture_title (label human first : option jsstring) : option jsstring :=
  or_else (explicit_title label) (pickFirstMessage human first).

End Infer.

(** White space in [s] is tidy: every white-space character is a plain
    space and no two stand next to each other; with [after_space], the
    string moreover follows a space. *)
Fixpoint tidy (after_space : bool) (s : jsstring) : Prop :=
  match s with
  | [] => True
  | c :: rest =>
      if is_space c then c = 32 /\ after_space = false /\ tidy true rest
      else tidy false rest
  end.

(** No white space at either end. *)
Definition trimmed_ends (s : jsstring) : Prop :=
  (forall c rest, s = c :: rest -> is_space c = false) /\
  (forall front c, s = front ++ [c] -> is_space c = false).

(** ** [connectCDP]: call correlation and context tracking

    The two kinds of [message] listener a session attaches to its socket:
    one per call in flight, and the one that keeps [contexts]. A message is
    taken after [JSON.parse], as the fields the listeners read. *)

Module Wire.

Section WithResult.
(** The type of [data.result]. *)
Context {V : Type}.

Record Message := {
  msg_id : option Z;                   (* data.id *)
  msg_error : option JsError;          (* data.error, when truthy *)
  msg_result : option V;               (* data.result *)
  msg_method : option jsstring;        (* data.method *)
  msg_context : option Context;        (* data.params.context *)
  msg_executionContextId : option Z    (* data.params.executionContextId *)
}.

(** [idCounter], the ids whose listener is still attached (in the order of
    the calls) and the [contexts] array. *)
Record Session := {
  idCounter : Z;
  pending : list Z;
  known : list Context
}.

(** A session as [connectCDP] sets it up, before its first call. *)
Definition fresh : Session := {| idCounter := 1; pending := []; known := [] |}.

(** How a call's promise ends. *)
Inductive Settlement :=
| Resolved (result : option V)
| Rejected (error : JsError).

(** [call(method, params)]: [const id = idCounter++], attach the listener,
    send [{ id, method, params }]. The id is returned. *)
Definition call (s : Session) : Z * Session :=
  (idCounter s,
   {| idCounter := idCounter s + 1;
      pending := pending s ++ [idCounter s];
      known := known s |}).

(** [if (data.error) reject(data.error); else resolve(data.result);] *)
Definition settle (m : Message) : Settlement :=
  match msg_error m with
  | Some e => Rejected e
  | None => Resolved (msg_result m)
  end.

(** [data.id === id] *)
Definition answers (m : Message) (id : Z) : bool :=
  match msg_id m with
  | Some i => i =? id
  | None => false
  end.

(** [contexts.findIndex(c => c.id === x)] then [contexts.splice(idx, 1)]
    when found: the first context with that id is removed. *)
Fixpoint remove_first (x : Z) (ctxs : list Context) : list Context :=
  match ctxs with
  | [] => []
  | c :: rest => if ctx_id c =? x then rest else c :: remove_first x rest
  end.

(** The listener that keeps [contexts]; a message without the fields it
    reads makes it throw, which its own [catch] swallows. *)
Definition track (m : Message) (ctxs : list Context) : list Context :=
  match msg_method m with
  | Some name =>
      if jsstring_eqb name (js "Runtime.executionContextCreated") then
        match msg_context m with
        | Some c => ctxs ++ [c]
        | None => ctxs
        end
      else if jsstring_eqb name (js "Runtime.executionContextDestroyed") then
        match msg_executionContextId m with
        | Some x => remove_first x ctxs
        | None => ctxs
        end
      else ctxs
  | None => ctxs
  end.

(** One inbound message, seen by every attached listener: the calls it
    settles (their listener is detached) and the session afterwards. *)
Definition deliver (m : Message) (s : Session) : list (Z * Settlement) * Session :=
  (map (fun id => (id, settle m)) (filter (fun id => answers m id = true) (pending s)),
   {| idCounter := idCounter s;
      pending := filter (fun id => answers m id = false) (pending s);
      known := track m (known s) |}).

(** The life of a session: calls and inbound messages in any order. *)
Inductive Step :=
| Call
| Inbound (m : Message).

Fixpoint run (steps : list Step) (s : Session) : Session :=
  match steps with
  | [] => s
  | Call :: rest => run rest (snd (call s))
  | Inbound m :: rest => run rest (snd (deliver m s))
  end.

End WithResult.
Arguments Message : clear implicits.
Arguments Session : clear implicits.
Arguments Settlement : clear implicits.
Arguments Step : clear implicits.

End Wire.

(** The three messages of the protocol the listeners react to. *)
Definition reply {V} (id : Z) (error : option JsError) (result : option V)
  : Wire.Message V :=
  {| Wire.msg_id := Some id; Wire.msg_error := error; Wire.msg_result := result;
     Wire.msg_method := None; Wire.msg_context := None;
     Wire.msg_executionContextId := None |}.

Definition contextCreated {V} (c : Context) : Wire.Message V :=
  {| Wire.msg_id := None; Wire.msg_error := None; Wire.msg_result := None;
     Wire.msg_method := Some (js "Runtime.executionContextCreated");
     Wire.msg_context := Some c; Wire.msg_executionContextId := None |}.

Definition contextDestroyed {V} (x : Z) : Wire.Message V :=
  {| Wire.msg_id := None; Wire.msg_error := None; Wire.msg_result := None;
     Wire.msg_method := Some (js "Runtime.executionContextDestroyed");
     Wire.msg_context := None; Wire.msg_executionContextId := Some x |}.

(** ** The other routes *)

Section MoreRoutes.
Context {R : Remote}.

(** [{ id, title, active }] of [GET /cascades]. *)
Record Summary := {
  summary_id : jsstring;
  summary_title : jsstring;
  summary_active : bool
}.

(** [app.get('/cascades')] *)
Definition get_cascades (st : State) : list Summary :=
  map (fun c => {| summary_id := cascade_id c;
                   summary_title := chatTitle (metadata c);
                   summary_active := isActive (metadata c) |})
    (registry_values st).

(** [app.get('/snapshot/:id')] *)
Definition get_snapshot_by_id (st : State) (ident : jsstring) : Response :=
  match registry_get st ident with
  | Some c =>
      match snapshot c with
      | Some snap => {| status := 200; body := json_snapshot snap |}
      | None => {| status := 404; body := json_error (js "Not found") |}
      end
  | None => {| status := 404; body := json_error (js "Not found") |}
  end.

(** [wss.on('connection', ...)]: a subscriber connects. *)
Definition on_connection (st : State) : State := broadcastCascadeList st.

End MoreRoutes.

(** ** What the loops keep *)

Section Invariants.
Context {R : Remote}.

(** A map is well formed over the heap of [st]: no key twice, and every
    key leads to an entry object that carries the key as its [id]. *)
Definition map_wf (m : JsMap.t nat) (st : State) : Prop :=
  NoDup (JsMap.keys m) /\
  forall ident ref,
    In (ident, ref) m ->
    exists c, heap st !! ref = Some c /\ cascade_id c = ident.

Definition registry_wf (st : State) : Prop := map_wf (cascades st) st.

(** The stored hash is the hash of the stored snapshot; both are [null]
    before the first stored capture. *)
Definition snapshot_consistent (c : Cascade) : Prop :=
  match snapshot c, snapshotHash c with
  | Some snap, Some hash => hash = hashString (html snap)
  | None, None => True
  | _, _ => False
  end.

(** What a discovery pass keeps of an entry object. *)
Definition kept_by_discover (c c' : Cascade) : Prop :=
  cascade_id c' = cascade_id c /\
  ws (cdp c') = ws (cdp c) /\
  contexts (cdp c') = contexts (cdp c) /\
  windowTitle (metadata c') = windowTitle (metadata c) /\
  snapshot c' = snapshot c /\
  css c' = css c /\
  snapshotHash c' = snapshotHash c.

(** What a polling pass keeps of an entry object. *)
Definition kept_by_polling (c c' : Cascade) : Prop :=
  cascade_id c' = cascade_id c /\
  cdp c' = cdp c /\
  css c' = css c /\
  windowTitle (metadata c') = windowTitle (metadata c) /\
  isActive (metadata c') = isActive (metadata c) /\
  app (metadata c') = app (metadata c) /\
  rootElementId (metadata c') = rootElementId (metadata c) /\
  rootSelector (metadata c') = rootSelector (metadata c).

(** Every object of the first heap is still there in the second, related
    by [keep]. *)
Definition heap_keeps (keep : Cascade -> Cascade -> Prop) (st st' : State) : Prop :=
  forall ref c,
    heap st !! ref = Some c ->
    exists c', heap st' !! ref = Some c' /\ keep c c'.

(** Every socket of the first table is still there in the second, on the
    same URL, and closed if it was closed. *)
Definition sockets_kept (st st' : State) : Prop :=
  forall sock s,
    sockets st !! sock = Some s ->
    exists s', sockets st' !! sock = Some s' /\
               sock_url s' = sock_url s /\
               (sock_closed s = true -> sock_closed s' = true).

(** [closed_in st sock]: the engine has closed socket [sock]. *)
Definition closed_in (st : State) (sock : nat) : Prop :=
  exists s, sockets st !! sock = Some s /\ sock_closed s = true.

(** What one turn of the loop of step 2 guarantees: the objects and
    sockets that existed are kept; an object it adds is unpolled and carries
    the candidate's identity; a socket it opens (at most one) is on the
    candidate's URL, and is closed again when the candidate is discarded;
    the new map gains the candidate's key exactly when it was identified. *)
Definition turn_keeps (c : Candidate) (acc : JsMap.t nat) (st : State)
    (out : Verdict * JsMap.t nat * State) : Prop :=
  let '(verdict, acc', st') := out in
  heap_keeps kept_by_discover st st' /\
  sockets_kept st st' /\
  (forall ref c',
     (length (heap st) <= ref)%nat -> heap st' !! ref = Some c' ->
     snapshot c' = None /\ snapshotHash c' = None /\ cascade_id c' = ident_of c) /\
  (forall sock s',
     (length (sockets st) <= sock)%nat -> sockets st' !! sock = Some s' ->
     sock_url s' = webSocketDebuggerUrl (target c)) /\
  (length (sockets st') <= S (length (sockets st)))%nat /\
  (if identified verdict
   then exists ref c',
          acc' = JsMap.set acc (ident_of c) ref /\
          heap st' !! ref = Some c' /\
          (cascade_id c' = ident_of c \/
           exists existing,
             JsMap.get (cascades st) (ident_of c) = Some ref /\
             heap st !! ref = Some existing /\
             cascade_id c' = cascade_id existing)
   else acc' = acc) /\
  (verdict = Discarded -> closed_in st' (length (sockets st))).

End Invariants.

(** ** More scenes *)

(** The entry that the first pass over window A creates. *)
Definition entry_a : Cascade :=
  {| cascade_id := hashString url_a;
     cdp := {| ws := 0; contexts := [{| ctx_id := 1 |}]; rootContextId := Some 1 |};
     metadata :=
       {| windowTitle := target_title (window url_a);
          chatTitle := js "Fix bug"; isActive := true; app := Antigravity;
          rootElementId := Some (js "cascade"); rootSelector := js "#cascade" |};
     snapshot := None;
     css := Some [];
     snapshotHash := None |}.

(** Window A is listed in two passes and shows its chat in both; between
    the passes one poll captures [hello]. *)
Definition refresh_world : Scripted.Script :=
  {| Scripted.listings := [[window url_a]; [window url_a]];
     Scripted.probes := [ProbeFound chat_found; ProbeFound chat_found];
     Scripted.captures := [Captured (snap_of html_hello None)] |}.

(** ** Substrings, and the life of the process *)

(** [needle] occurs in [hay]. *)
Definition occurs_in (needle hay : jsstring) : Prop :=
  exists before after, hay = before ++ needle ++ after.

Section Life.
Context {R : Remote}.

(** What happens to the process, one event at a time: a tick of the
    discovery timer, a tick of the polling timer, a subscriber connecting,
    a send request. Each is handled to its end before the next one; how a
    pass interleaves with other events at its [await]s is not modelled. *)
Inductive Event :=
| tick_discover
| tick_poll
| subscriber_connects
| request_send (ident message : jsstring).

Definition handle (e : Event) (st : State) : State :=
  match e with
  | tick_discover => discover st
  | tick_poll => updateSnapshots st
  | subscriber_connects => on_connection st
  | request_send ident message => snd (post_send ident message st)
  end.

(** The state after a sequence of events, the earliest first. *)
Definition after (events : list Event) (st : State) : State :=
  fold_left (fun st e => handle e st) events st.

End Life.

(** * Properties *)

(** *** Facts about the 32-bit arithmetic *)

Section HashFacts.

Lemma to_int32_range z : - 2 ^ 31 <= to_int32 z < 2 ^ 31.
Proof.
  unfold to_int32.
  pose proof (Z.mod_pos_bound (z + 2 ^ 31) (2 ^ 32) ltac:(lia)). lia.
Qed.

Lemma to_int32_mod z : to_int32 z mod 2 ^ 32 = z mod 2 ^ 32.
Proof.
  unfold to_int32.
  rewrite Zminus_mod, Zmod_mod, <- Zminus_mod.
  f_equal. lia.
Qed.

Lemma to_int32_small z : - 2 ^ 31 <= z < 2 ^ 31 -> to_int32 z = z.
Proof.
  intros Hz. unfold to_int32. rewrite Z.mod_small; lia.
Qed.

Lemma hash_step_range h c : - 2 ^ 31 <= hash_step h c < 2 ^ 31.
Proof. unfold hash_step, and32. apply to_int32_range. Qed.

(** The loop body is [31 * hash + char] modulo 2^32. *)
Lemma hash_step_mod h c : hash_step h c mod 2 ^ 32 = (31 * h + c) mod 2 ^ 32.
Proof.
  unfold hash_step, and32, shl32.
  rewrite Z.land_diag, to_int32_mod, to_int32_mod.
  rewrite Z.shiftl_mul_pow2 by lia.
  rewrite Zplus_mod, Zminus_mod, to_int32_mod.
  rewrite Zmult_mod, to_int32_mod, <- Zmult_mod.
  rewrite <- Zminus_mod, <- Zplus_mod.
  f_equal. lia.
Qed.

Lemma hash32_range s : - 2 ^ 31 <= hash32 s < 2 ^ 31.
Proof.
  unfold hash32.
  destruct (rev s) as [|c r] eqn:E.
  - apply (f_equal (@rev Z)) in E. rewrite rev_involutive in E. subst. simpl. lia.
  - apply (f_equal (@rev Z)) in E. rewrite rev_involutive in E. subst.
    simpl. rewrite fold_left_app. simpl. apply hash_step_range.
Qed.

(** 31 is odd, so multiplying by it is injective modulo 2^32:
    3186588639 * 31 = 1 + 23 * 2^32. *)
Lemma mul31_cancel a b :
  (31 * a) mod 2 ^ 32 = (31 * b) mod 2 ^ 32 -> a mod 2 ^ 32 = b mod 2 ^ 32.
Proof.
  intros H.
  assert (E : forall x, x mod 2 ^ 32 = (3186588639 * ((31 * x) mod 2 ^ 32)) mod 2 ^ 32).
  { intros x. rewrite Zmult_mod_idemp_r.
    replace (3186588639 * (31 * x)) with (x + (23 * x) * 2 ^ 32) by lia.
    now rewrite Z_mod_plus_full. }
  rewrite (E a), (E b), H. reflexivity.
Qed.

Lemma hash_step_cancel h h' c :
  hash_step h c mod 2 ^ 32 = hash_step h' c mod 2 ^ 32 ->
  h mod 2 ^ 32 = h' mod 2 ^ 32.
Proof.
  rewrite !hash_step_mod. intros H.
  apply mul31_cancel.
  rewrite <- (Z.add_simpl_r (31 * h) c), <- (Z.add_simpl_r (31 * h') c).
  rewrite (Zminus_mod (31 * h + c)), (Zminus_mod (31 * h' + c)), H.
  reflexivity.
Qed.

(** A fold whose step can be cancelled modulo [m] keeps two runs apart.
    The step is abstract here, so that no 32-bit arithmetic is unfolded. *)
Lemma fold_left_separates (f : Z -> Z -> Z) (m : Z)
    (cancel : forall h h' c, f h c mod m = f h' c mod m -> h mod m = h' mod m)
    (post : list Z) (h h' : Z) :
  h mod m <> h' mod m ->
  fold_left f post h mod m <> fold_left f post h' mod m.
Proof.
  revert h h'. induction post as [|c post IH]; intros h h' Hne; cbn [fold_left].
  - exact Hne.
  - apply IH. intros E. apply Hne. exact (cancel h h' c E).
Qed.

Lemma fold_left_cons_step {A B : Type} (f : A -> B -> A) (c : B) (l : list B) (a : A) :
  fold_left f (c :: l) a = fold_left f l (f a c).
Proof. reflexivity. Qed.

(** Two runs that differ modulo 2^32 still differ after the same suffix. *)
Lemma fold_hash_step_separates post h h' :
  h mod 2 ^ 32 <> h' mod 2 ^ 32 ->
  fold_left hash_step post h mod 2 ^ 32 <> fold_left hash_step post h' mod 2 ^ 32.
Proof. exact (fold_left_separates hash_step (2 ^ 32) hash_step_cancel post h h'). Qed.

Lemma hash_step_char_separates h c c' :
  is_code_unit c -> is_code_unit c' -> c <> c' ->
  hash_step h c mod 2 ^ 32 <> hash_step h c' mod 2 ^ 32.
Proof.
  unfold is_code_unit. intros Hc Hc' Hne E.
  rewrite !hash_step_mod in E.
  assert (D : (c - c') mod 2 ^ 32 = 0).
  { replace (c - c') with ((31 * h + c) - (31 * h + c')) by lia.
    rewrite Zminus_mod, E, Z.sub_diag. reflexivity. }
  change (2 ^ 32) with 4294967296 in D.
  apply Z.mod_divide in D; [|discriminate].
  destruct D as [k Hk]. lia.
Qed.

Lemma hash32_sensitive pre post c c' :
  is_code_unit c -> is_code_unit c' -> c <> c' ->
  hash32 (pre ++ c :: post) <> hash32 (pre ++ c' :: post).
Proof.
  intros Hc Hc' Hne E.
  unfold hash32 in E. rewrite !fold_left_app, !fold_left_cons_step in E.
  eapply fold_hash_step_separates; [|rewrite E; reflexivity].
  now apply hash_step_char_separates.
Qed.

End HashFacts.

(** *** [toString(36)] is injective *)

Section Radix36.

Lemma digits36_value fuel n :
  0 <= n < 36 ^ Z.of_nat fuel -> value36 (digits36 fuel n) = n.
Proof.
  revert n. induction fuel as [|fuel IH]; intros n Hn.
  - change (36 ^ Z.of_nat 0) with 1 in Hn. cbn. lia.
  - cbn [digits36]. pose proof (Z.div_mod n 36 ltac:(lia)) as Hdm.
    destruct (n / 36 =? 0) eqn:E.
    + apply Z.eqb_eq in E. cbn. lia.
    + apply Z.eqb_neq in E. cbn [value36 fold_right].
      fold (value36 (digits36 fuel (n / 36))).
      rewrite IH; [lia|].
      split; [apply Z.div_pos; lia|].
      apply Z.div_lt_upper_bound; [lia|].
      rewrite Nat2Z.inj_succ, Z.pow_succ_r in Hn by lia. lia.
Qed.

Lemma digits36_bounded fuel n d :
  In d (digits36 fuel n) -> 0 <= d < 36.
Proof.
  revert n. induction fuel as [|fuel IH]; intros n; cbn [digits36]; [intros []|].
  intros [<-|Hin].
  - apply Z.mod_pos_bound. lia.
  - destruct (n / 36 =? 0); [destruct Hin|eauto].
Qed.

Lemma digits36_nonempty fuel n : digits36 (S fuel) n <> [].
Proof. cbn [digits36]. discriminate. Qed.

Lemma digit36_inj a b :
  0 <= a < 36 -> 0 <= b < 36 -> digit36 a = digit36 b -> a = b.
Proof.
  unfold digit36. intros Ha Hb.
  destruct (a <? 10) eqn:Ea, (b <? 10) eqn:Eb;
    rewrite ?Z.ltb_lt, ?Z.ltb_ge in *; lia.
Qed.

Lemma digit36_not_minus d : 0 <= d < 36 -> digit36 d <> 45.
Proof.
  unfold digit36. intros Hd. destruct (d <? 10) eqn:E;
    rewrite ?Z.ltb_lt, ?Z.ltb_ge in *; lia.
Qed.

Lemma map_digit36_inj (l1 l2 : list Z) :
  (forall d, In d l1 -> 0 <= d < 36) ->
  (forall d, In d l2 -> 0 <= d < 36) ->
  map digit36 l1 = map digit36 l2 -> l1 = l2.
Proof.
  revert l2. induction l1 as [|a l1 IH]; intros [|b l2] H1 H2 E;
    try discriminate; [reflexivity|].
  cbn in E. injection E as Eab Erest.
  f_equal.
  - apply digit36_inj; [apply H1|apply H2|assumption]; now left.
  - apply IH; [intros d Hd; apply H1|intros d Hd; apply H2|assumption]; now right.
Qed.

(** Enough fuel: a number is below 36 to the number of its bits. *)
Lemma fuel_enough n :
  0 <= n -> n < 36 ^ Z.of_nat (S (Z.to_nat (Z.log2 n))).
Proof.
  intros Hn.
  rewrite Nat2Z.inj_succ, Z2Nat.id by apply Z.log2_nonneg.
  destruct (Z.eq_dec n 0) as [->|Hne]; [cbn; lia|].
  pose proof (Z.log2_spec n ltac:(lia)) as [_ Hlt].
  eapply Z.lt_le_trans; [exact Hlt|].
  apply Z.pow_le_mono_l. pose proof (Z.log2_nonneg n). lia.
Qed.

Lemma radix36_value n :
  0 <= n -> value36 (digits36 (S (Z.to_nat (Z.log2 n))) n) = n.
Proof. intros Hn. apply digits36_value. split; [lia|now apply fuel_enough]. Qed.

Lemma radix36_inj n m : 0 <= n -> 0 <= m -> radix36 n = radix36 m -> n = m.
Proof.
  intros Hn Hm E. unfold radix36 in E.
  apply map_digit36_inj in E.
  - apply (f_equal (@rev Z)) in E. rewrite !rev_involutive in E.
    rewrite <- (radix36_value n Hn), <- (radix36_value m Hm), E. reflexivity.
  - intros d Hd. apply in_rev in Hd. eapply digits36_bounded; eauto.
  - intros d Hd. apply in_rev in Hd. eapply digits36_bounded; eauto.
Qed.

Lemma radix36_head n : exists d rest, radix36 n = digit36 d :: rest /\ 0 <= d < 36.
Proof.
  unfold radix36.
  set (ds := digits36 _ n).
  assert (Hb : forall d, In d (rev ds) -> 0 <= d < 36).
  { intros d Hd. apply in_rev in Hd. eapply digits36_bounded; eauto. }
  assert (Hne : rev ds <> []).
  { intros E. apply (f_equal (@rev Z)) in E. rewrite rev_involutive in E.
    now apply digits36_nonempty in E. }
  destruct (rev ds) as [|d rest]; [congruence|].
  exists d, (map digit36 rest). split; [reflexivity|]. apply Hb. now left.
Qed.

Lemma toString36_inj n m : toString36 n = toString36 m -> n = m.
Proof.
  unfold toString36.
  destruct (n <? 0) eqn:En, (m <? 0) eqn:Em;
    rewrite ?Z.ltb_lt, ?Z.ltb_ge in *; intros E.
  - injection E as E. apply radix36_inj in E; lia.
  - destruct (radix36_head m) as (d & rest & Hr & Hd). rewrite Hr in E.
    injection E as E _. symmetry in E. now apply digit36_not_minus in E.
  - destruct (radix36_head n) as (d & rest & Hr & Hd). rewrite Hr in E.
    injection E as E _. now apply digit36_not_minus in E.
  - apply radix36_inj in E; lia.
Qed.

End Radix36.

(** *** The hash as an identity and as a change detector *)

Example hashString_empty : hashString [] = js "0".
Proof. reflexivity. Qed.

Example hashString_abc : hashString (js "abc") = js "22ci".
Proof. vm_compute. reflexivity. Qed.

(** A hash that leaves the positive 32-bit range wraps to a negative number. *)
Example hashString_wraps :
  hash32 (js "ws://127.0.0.1:9000/devtools/page/A") < 0 \/
  hash32 (js "zzzzzzzz") < 0.
Proof. vm_compute. auto. Qed.

Lemma int32_congruent_eq x y :
  - 2 ^ 31 <= x < 2 ^ 31 -> - 2 ^ 31 <= y < 2 ^ 31 ->
  x mod 2 ^ 32 = y mod 2 ^ 32 -> x = y.
Proof.
  intros Hx Hy E.
  rewrite <- (to_int32_small x Hx), <- (to_int32_small y Hy).
  unfold to_int32. rewrite Zplus_mod, E, <- Zplus_mod. reflexivity.
Qed.

(** Appending a character multiplies the hash by 31 and adds the character,
    wrapping to 32 bits. *)
Lemma hash32_snoc s c : hash32 (s ++ [c]) = to_int32 (31 * hash32 s + c).
Proof.
  unfold hash32. rewrite fold_left_app. cbn [fold_left].
  apply int32_congruent_eq.
  - apply hash_step_range.
  - apply to_int32_range.
  - rewrite hash_step_mod, to_int32_mod. reflexivity.
Qed.

(** C7. [hashString] is a function of the string alone, so computing it
    again on the same string (the same transport URL, or unchanged snapshot
    HTML) gives the same result; its arithmetic is on wrapping 32-bit
    integers (the hash starts at 0, each character takes [h] to
    [31 * h + char] wrapped to a signed 32-bit value, and the result is that
    value in base 36); and replacing any single character of any string by a
    different character changes the result. *)
Theorem hashString_deterministic_and_sensitive :
  (forall s t : jsstring, s = t -> hashString s = hashString t) /\
  (hash32 [] = 0 /\
   forall (s : jsstring) (c : Z),
     hash32 (s ++ [c]) = to_int32 (31 * hash32 s + c) /\
     - 2 ^ 31 <= hash32 s < 2 ^ 31 /\
     hashString s = toString36 (hash32 s)) /\
  (forall (pre post : jsstring) (c c' : Z),
     is_code_unit c -> is_code_unit c' -> c <> c' ->
     hashString (pre ++ c :: post) <> hashString (pre ++ c' :: post)).
Proof.
  split; [|split].
  - intros s t ->. reflexivity.
  - split; [reflexivity|]. intros s c. split; [apply hash32_snoc|].
    split; [apply hash32_range|reflexivity].
  - intros pre post c c' Hc Hc' Hne E.
    unfold hashString in E. apply toString36_inj in E.
    revert E. now apply hash32_sensitive.
Qed.

(** The snapshots of scenario B: [hello] against [hello!] is an insertion,
    [hello] against [hellp] a replacement. *)
Lemma hashString_sensitive_witness :
  hashString (js "<div id=root>hello</div>") <> hashString (js "<div id=root>hellp</div>").
Proof.
  apply (proj2 (proj2 hashString_deterministic_and_sensitive)
           (js "<div id=root>hell") (js "</div>") 111 112);
    unfold is_code_unit; lia.
Defined.

(** ** The title filter *)

Section TitleFacts.












End TitleFacts.

Example isGoodTitle_fix_bug : isGoodTitle (js "Fix bug") = true.
Proof. reflexivity. Qed.

Example normalizeText_collapses :
  normalizeText (9 :: js "  Fix " ++ 10 :: 160 :: js "bug  ") = js "Fix bug".
Proof. reflexivity. Qed.

(** The expressions are anchored at the start only: a title that merely
    begins with a phrase is rejected too. *)
Example isGoodTitle_planning : isGoodTitle (js "Planning the release") = false.
Proof. reflexivity. Qed.

Example isGoodTitle_localhost : isGoodTitle (js "localhost setup") = true.
Proof. reflexivity. Qed.



(** ** The metadata extractor *)

Section SessionFacts.
Context {R : Remote}.

Lemma scan_contexts_outcome sock ctxs w :
  scan_outcome sock ctxs w
    (fst (scan_contexts sock ctxs w)) (snd (scan_contexts sock ctxs w)).
Proof.
  revert w. induction ctxs as [|ctx rest IH]; intros w; cbn [scan_contexts].
  - constructor.
  - destruct (evaluate_metadata w sock (ctx_id ctx)) as [probe w1] eqn:E.
    assert (Hskip : (forall v, probe <> ProbeFound v) ->
                    scan_outcome sock (ctx :: rest) w
                      (fst (scan_contexts sock rest w1))
                      (snd (scan_contexts sock rest w1))).
    { intros Hnf. specialize (IH w1). unfold scan_outcome in *.
      destruct (fst (scan_contexts sock rest w1)) as [meta|].
      - destruct IH as (before & c & after & w2 & -> & Hp & He & Hc).
        exists (ctx :: before), c, after, w2. repeat split; auto.
        econstructor; eauto.
      - econstructor; eauto. }
    destruct probe as [v| |].
    + cbn. exists [], ctx, rest, w. repeat split; auto. constructor.
    + apply Hskip. discriminate.
    + apply Hskip. discriminate.
Qed.


Lemma truthy_id_nonzero x c : truthy_id x = Some c -> x = Some c /\ c <> 0.
Proof.
  unfold truthy_id. destruct x as [z|]; [|discriminate].
  destruct (z =? 0) eqn:E; [discriminate|].
  apply Z.eqb_neq in E. intros [= <-]. auto.
Qed.


End SessionFacts.



Example stale_session_heals :
  fst (extractMetadata (R := Scripted.remote) stale_session stale_world)
  = (Some {| meta_value := chat_found; contextId := 5 |},
     set_rootContextId stale_session None).
Proof. reflexivity. Qed.

(** ** The map *)

Section JsMapFacts.
Context {V : Type}.

Lemma jsstring_eqb_true a b : jsstring_eqb a b = true <-> a = b.
Proof. unfold jsstring_eqb. apply bool_decide_eq_true. Qed.

Lemma jsstring_eqb_false a b : jsstring_eqb a b = false <-> a <> b.
Proof. unfold jsstring_eqb. apply bool_decide_eq_false. Qed.

Lemma keys_set (m : JsMap.t V) k v k' :
  In k' (JsMap.keys (JsMap.set m k v)) <-> k' = k \/ In k' (JsMap.keys m).
Proof.
  induction m as [|[k0 v0] m IH]; cbn [JsMap.set JsMap.keys map fst In].
  - intuition.
  - destruct (jsstring_eqb k0 k) eqn:E; cbn [JsMap.keys map fst In].
    + apply jsstring_eqb_true in E. subst. intuition.
    + unfold JsMap.keys in IH. rewrite IH. intuition.
Qed.

Lemma keys_set_NoDup (m : JsMap.t V) k v :
  NoDup (JsMap.keys m) -> NoDup (JsMap.keys (JsMap.set m k v)).
Proof.
  induction m as [|[k0 v0] m IH]; cbn [JsMap.set JsMap.keys map fst]; intros Hnd.
  - apply NoDup_cons. split; [apply not_elem_of_nil|exact Hnd].
  - destruct (jsstring_eqb k0 k) eqn:E; cbn [JsMap.keys map fst]; [exact Hnd|].
    apply jsstring_eqb_false in E.
    apply NoDup_cons in Hnd as [Hnotin Hnd].
    apply NoDup_cons. split; [|now apply IH].
    rewrite list_elem_of_In in *. fold (JsMap.keys (JsMap.set m k v)).
    rewrite keys_set. intros [->|Hin]; [congruence|]. now apply Hnotin.
Qed.

Lemma has_keys (m : JsMap.t V) k : JsMap.has m k = true <-> In k (JsMap.keys m).
Proof.
  unfold JsMap.has.
  induction m as [|[k0 v0] m IH]; cbn [JsMap.get JsMap.keys map fst In].
  - intuition discriminate.
  - destruct (jsstring_eqb k0 k) eqn:E.
    + apply jsstring_eqb_true in E. intuition.
    + apply jsstring_eqb_false in E. unfold JsMap.keys in IH. rewrite IH. intuition.
Qed.

(** Two maps with the same keys have the same size. *)
Lemma same_keys_same_size (m1 m2 : JsMap.t V) :
  NoDup (JsMap.keys m1) -> NoDup (JsMap.keys m2) ->
  (forall k, In k (JsMap.keys m1) <-> In k (JsMap.keys m2)) ->
  JsMap.size m1 = JsMap.size m2.
Proof.
  intros H1 H2 Hk. unfold JsMap.size.
  rewrite <- (length_map fst m1), <- (length_map fst m2).
  apply Permutation_length, NoDup_Permutation; [assumption..|].
  intros k. rewrite !list_elem_of_In. apply Hk.
Qed.

End JsMapFacts.

(** ** Discovery *)

#[local] Arguments extractMetadata : simpl never.
#[local] Arguments captureCSS : simpl never.
#[local] Arguments captureHTML : simpl never.
#[local] Arguments hashString : simpl never.

Section DiscoverFacts.
Context {R : Remote}.

(** What one turn of the loop leaves alone, and what it does to the new
    map: a key is set exactly when the candidate was identified. *)
Local Abbreviation turn_ok ident acc st out :=
  (let '(verdict, acc', st') := out in
   cascades st' = cascades st /\ outbox st' = outbox st /\
   (if identified verdict then exists ref, acc' = JsMap.set acc ident ref
    else acc' = acc)).

Lemma connect_fresh_ok c ident acc st :
  turn_ok ident acc st (connect_fresh c ident acc st).
Proof.
  unfold connect_fresh.
  destruct (connectCDP (world st) _) as [dial w1].
  destruct dial as [| |announced]; cbn; auto.
  match goal with
  | |- context [extractMetadata ?a ?b] =>
      destruct (extractMetadata a b) as [[meta cdp1] w2]
  end.
  destruct meta as [meta|]; cbn; auto.
  match goal with
  | |- context [captureCSS ?a ?b ?c] => destruct (captureCSS a b c) as [sheet w3]
  end.
  cbn. eauto.
Qed.

Lemma reconcile_candidate_ok c acc st :
  turn_ok (ident_of c) acc st (reconcile_candidate c acc st).
Proof.
  unfold reconcile_candidate. fold (ident_of c).
  pose proof (connect_fresh_ok c (ident_of c) acc st) as Hfresh.
  destruct (JsMap.get (cascades st) (ident_of c)) as [ref|]; [|exact Hfresh].
  destruct (heap st !! ref) as [existing|]; [|exact Hfresh].
  destruct (readyState_open st (ws (cdp existing))); [|exact Hfresh].
  destruct (extractMetadata (cdp existing) (world st)) as [[meta cdp1] w1].
  destruct meta as [meta|].
  - cbn. eauto.
  - match goal with
    | |- context [connect_fresh _ _ _ ?s] =>
        pose proof (connect_fresh_ok c (ident_of c) acc s) as H
    end.
    destruct (connect_fresh _ _ _ _) as [[v acc'] st']. cbn in H. exact H.
Qed.

Lemma reconcile_ok allTargets acc st :
  let '(trace, acc', st') := reconcile allTargets acc st in
  map fst trace = map ident_of allTargets /\
  cascades st' = cascades st /\ outbox st' = outbox st /\
  (NoDup (JsMap.keys acc) -> NoDup (JsMap.keys acc')) /\
  (forall k, In k (JsMap.keys acc') <->
             In k (JsMap.keys acc) \/ In k (identified_in trace)).
Proof.
  revert acc st. induction allTargets as [|c rest IH]; intros acc st;
    cbn [reconcile].
  - cbn. intuition.
  - pose proof (reconcile_candidate_ok c acc st) as Hturn.
    destruct (reconcile_candidate c acc st) as [[verdict acc1] st1].
    specialize (IH acc1 st1).
    destruct (reconcile rest acc1 st1) as [[trace acc2] st2].
    destruct Hturn as (Hc & Ho & Hacc).
    destruct IH as (Htr & Hc2 & Ho2 & Hnd & Hkeys).
    fold (ident_of c). cbn [map fst].
    split; [now rewrite Htr|].
    split; [congruence|]. split; [congruence|].
    unfold identified_in. cbn [filter list_filter snd].
    destruct (identified verdict) eqn:Ev.
    + destruct Hacc as [ref ->]. split.
      * intros H. now apply Hnd, keys_set_NoDup.
      * intros k. rewrite Hkeys, keys_set.
        rewrite decide_True by reflexivity. cbn [map fst In].
        fold (identified_in trace). intuition.
    + subst acc1. split; [exact Hnd|].
      intros k. rewrite Hkeys.
      rewrite decide_False by discriminate.
      fold (identified_in trace). reflexivity.
Qed.

Lemma cleanup_ok old newCascades st :
  cascades (cleanup old newCascades st) = cascades st /\
  outbox (cleanup old newCascades st) = outbox st /\
  heap (cleanup old newCascades st) = heap st.
Proof.
  revert st. induction old as [|[ident ref] old IH]; intros st; cbn [cleanup].
  - auto.
  - match goal with |- context [cleanup old newCascades ?s] => specialize (IH s) end.
    destruct IH as (Hc & Ho & Hh). rewrite Hc, Ho, Hh.
    destruct (JsMap.has newCascades ident); [auto|].
    destruct (heap st !! ref); auto.
Qed.

(** The pass, opened up: the new registry is the map built by step 2, and
    the only message a pass can add is one list. *)
Lemma discover_traced_ok st :
  let allTargets := fst (find_targets PORTS (world st)) in
  let trace := fst (discover_traced st) in
  let st' := snd (discover_traced st) in
  map fst trace = map ident_of allTargets /\
  NoDup (JsMap.keys (cascades st')) /\
  (forall k, In k (JsMap.keys (cascades st')) <-> In k (identified_in trace)) /\
  outbox st' =
    outbox st ++
    (if (JsMap.size (cascades st) =? JsMap.size (cascades st'))%nat then []
     else [cascade_list (map list_item (registry_values st'))]).
Proof.
  cbv zeta. unfold discover_traced.
  destruct (find_targets PORTS (world st)) as [allTargets w1]. cbn [fst].
  pose proof (reconcile_ok allTargets [] (set_world st w1)) as Hrec.
  destruct (reconcile allTargets [] (set_world st w1)) as [[trace acc] st1].
  destruct Hrec as (Htr & Hc & Ho & Hnd & Hkeys).
  destruct (cleanup_ok (cascades st1) acc st1) as (Hc2 & Ho2 & _).
  set (st2 := cleanup (cascades st1) acc st1) in *. clearbody st2.
  cbn [fst snd]. split; [exact Htr|].
  rewrite Hc2, Hc. cbn [set_world cascades].
  destruct (JsMap.size (cascades st) =? JsMap.size acc)%nat eqn:Esz;
    cbn [negb broadcastCascadeList broadcast set_cascades cascades outbox].
  - rewrite Esz, app_nil_r.
    split; [apply Hnd; constructor|].
    split; [intros k; rewrite Hkeys; cbn; intuition|].
    rewrite Ho2, Ho. reflexivity.
  - rewrite Esz.
    split; [apply Hnd; constructor|].
    split; [intros k; rewrite Hkeys; cbn; intuition|].
    rewrite Ho2, Ho. reflexivity.
Qed.

End DiscoverFacts.

(** *** What the verdicts of the trace stand for *)

Section Verdicts.
Context {R : Remote}.

Lemma connect_fresh_verdict c ident acc st :
  let verdict := fst (fst (connect_fresh c ident acc st)) in
  verdict <> Refreshed /\
  (verdict = Added <->
   exists announced w1,
     connectCDP (world st) (webSocketDebuggerUrl (target c))
       = (DialOpened announced, w1) /\
     fst (fst (extractMetadata
                 {| ws := length (sockets st); contexts := announced;
                    rootContextId := None |} w1)) <> None).
Proof.
  cbv zeta. unfold connect_fresh.
  destruct (connectCDP (world st) _) as [dial w1].
  destruct dial as [| |announced]; cbn [fst snd].
  - split; [discriminate|]. split; [discriminate|].
    intros (a & w & E & _). discriminate.
  - split; [discriminate|]. split; [discriminate|].
    intros (a & w & E & _). discriminate.
  - destruct (extractMetadata _ w1) as [[meta cdp1] w2] eqn:E.
    destruct meta as [meta|].
    + destruct (captureCSS _ _ w2) as [sheet w3]. cbn [fst snd].
      split; [discriminate|]. split; [|reflexivity].
      intros _. exists announced, w1. split; [reflexivity|].
      rewrite E. discriminate.
    + cbn [fst snd]. split; [discriminate|]. split; [discriminate|].
      intros (a & w & [= <- <-] & Hne). rewrite E in Hne. now destruct Hne.
Qed.

(** A candidate is [Refreshed] exactly when the registry holds an entry
    under its identity, the entry's transport is open and the extraction
    over it returns a result. *)
Lemma reconcile_candidate_refreshed c acc st :
  fst (fst (reconcile_candidate c acc st)) = Refreshed <->
  exists ref existing,
    JsMap.get (cascades st) (ident_of c) = Some ref /\
    heap st !! ref = Some existing /\
    readyState_open st (ws (cdp existing)) = true /\
    fst (fst (extractMetadata (cdp existing) (world st))) <> None.
Proof.
  unfold reconcile_candidate.
  assert (Hfresh : forall s, fst (fst (connect_fresh c (ident_of c) acc s)) = Refreshed
                             -> False).
  { intros s. apply (connect_fresh_verdict c (ident_of c) acc s). }
  destruct (JsMap.get (cascades st) (ident_of c)) as [ref|].
  2:{ split; [intros H; now apply Hfresh in H|]. intros (r & e & [=] & _). }
  destruct (heap st !! ref) as [existing|] eqn:Eh.
  2:{ split; [intros H; now apply Hfresh in H|].
      intros (r & e & [= <-] & He & _). congruence. }
  destruct (readyState_open st (ws (cdp existing))) eqn:Eo.
  2:{ split; [intros H; now apply Hfresh in H|].
      intros (r & e & [= <-] & He & Ho & _). congruence. }
  destruct (extractMetadata (cdp existing) (world st)) as [[meta cdp1] w1] eqn:Ex.
  destruct meta as [meta|].
  - cbn [fst snd]. split; [|reflexivity]. intros _.
    exists ref, existing. repeat split; auto. rewrite Ex. discriminate.
  - split; [intros H; now apply Hfresh in H|].
    intros (r & e & [= <-] & He & _ & Hne).
    assert (e = existing) as -> by congruence.
    rewrite Ex in Hne. now destruct Hne.
Qed.

End Verdicts.

(** *** The claims on a discovery pass *)


(** C4, as the code has it. A pass emits a list broadcast exactly when the
    number of entries of the registry changed, and then exactly one, built
    from the new registry. A pass that keeps the same keys therefore emits
    none, and a pass whose candidate list is empty empties the registry and
    emits a list exactly when the registry was not empty before. *)
Theorem discover_broadcasts_on_size_change `{R : Remote} (st : State) :
  let st' := discover st in
  outbox st' =
    outbox st ++
    (if (JsMap.size (cascades st) =? JsMap.size (cascades st'))%nat then []
     else [cascade_list (map list_item (registry_values st'))]) /\
  (NoDup (JsMap.keys (cascades st)) ->
   (forall k, In k (JsMap.keys (cascades st)) <-> In k (JsMap.keys (cascades st'))) ->
   outbox st' = outbox st) /\
  (fst (find_targets PORTS (world st)) = [] ->
   cascades st' = [] /\ (outbox st' <> outbox st <-> cascades st <> [])).
Proof.
  cbv zeta. unfold discover.
  pose proof (discover_traced_ok st) as H. cbv zeta in H.
  destruct H as (Htr & Hnd & Hkeys & Hout).
  split; [exact Hout|]. split.
  - intros Hnd0 Hsame. rewrite Hout.
    rewrite (same_keys_same_size _ _ Hnd0 Hnd Hsame), Nat.eqb_refl.
    apply app_nil_r.
  - intros Hempty. rewrite Hempty in Htr. cbn in Htr.
    apply map_eq_nil in Htr.
    assert (Hnil : cascades (snd (discover_traced st)) = []).
    { destruct (cascades (snd (discover_traced st))) as [|[k v] m]; [reflexivity|].
      exfalso. specialize (Hkeys k). rewrite Htr in Hkeys. cbn in Hkeys. tauto. }
    split; [exact Hnil|].
    rewrite Hout, Hnil. unfold JsMap.size. cbn [length].
    destruct (cascades st) as [|e m]; cbn [length Nat.eqb].
    + rewrite app_nil_r. tauto.
    + split; [discriminate|]. intros _ E.
      apply (f_equal (@length Msg)) in E. rewrite length_app in E. cbn in E. lia.
Qed.

(** *** Passes in scripted worlds *)

(** The first pass over window A adds one entry and announces the list. *)
Example first_pass_adds :
  JsMap.keys (cascades (first_pass steady_world)) = [hashString url_a] /\
  fst (discover_traced (R := Scripted.remote) (initial (R := Scripted.remote) steady_world))
    = [(hashString url_a, Added)] /\
  length (outbox (first_pass steady_world)) = 1%nat.
Proof. vm_compute. auto. Qed.

(** The second pass refreshes it over the same socket. *)
Example second_pass_refreshes :
  fst (discover_traced (R := Scripted.remote) (first_pass steady_world))
    = [(hashString url_a, Refreshed)] /\
  map sock_closed (sockets (second_pass steady_world)) = [false].
Proof. vm_compute. auto. Qed.

Lemma discover_broadcasts_on_size_change_witness :
  NoDup (JsMap.keys (cascades (first_pass steady_world))) /\
  outbox (second_pass steady_world) = outbox (first_pass steady_world).
Proof.
  assert (Hnd : NoDup (JsMap.keys (cascades (first_pass steady_world)))).
  { vm_compute. apply NoDup_cons. split; [apply not_elem_of_nil|apply NoDup_nil_2]. }
  split; [exact Hnd|].
  apply (proj1 (proj2 (discover_broadcasts_on_size_change
                         (R := Scripted.remote) (first_pass steady_world)))).
  - exact Hnd.
  - intros k. vm_compute. tauto.
Defined.

(** C4, as stated, fails: the registry goes from window A alone to window
    B alone, so its membership changes, and no list is broadcast. *)
Lemma membership_swap_without_broadcast :
  JsMap.keys (cascades (first_pass swap_world)) = [hashString url_a] /\
  JsMap.keys (cascades (second_pass swap_world)) = [hashString url_b] /\
  hashString url_a <> hashString url_b /\
  outbox (second_pass swap_world) = outbox (first_pass swap_world).
Proof.
  split; [vm_compute; reflexivity|].
  split; [vm_compute; reflexivity|].
  split; [|vm_compute; reflexivity].
  vm_compute. intros E. discriminate E.
Qed.

(** The entry of window A that the swap removed had its transport closed. *)
Example swap_closes_removed :
  map sock_closed (sockets (second_pass swap_world)) = [true; false].
Proof. vm_compute. reflexivity. Qed.

(** C2 on the code: the second pass over the reloading window replaces the
    entry under the same identity with one on a fresh socket, and the socket
    of the entry it replaced stays open: step 3 closes a transport only
    when the entry's key is missing from the new map. *)
Lemma replaced_session_left_open :
  fst (discover_traced (R := Scripted.remote) (first_pass reload_world))
    = [(hashString url_a, Added)] /\
  option_map (fun c => ws (cdp c))
    (registry_get (second_pass reload_world) (hashString url_a)) = Some 1%nat /\
  live_sockets (second_pass reload_world) (hashString url_a) = [0; 1]%nat /\
  ~ one_session_per_identity (second_pass reload_world).
Proof.
  assert (Hlive : live_sockets (second_pass reload_world) (hashString url_a)
                  = [0; 1]%nat) by (vm_compute; reflexivity).
  assert (Hws : option_map (fun c => ws (cdp c))
                  (registry_get (second_pass reload_world) (hashString url_a))
                = Some 1%nat) by (vm_compute; reflexivity).
  split; [vm_compute; reflexivity|].
  split; [exact Hws|].
  split; [exact Hlive|].
  intros Hinv. revert Hws.
  destruct (registry_get (second_pass reload_world) (hashString url_a))
    as [c|] eqn:Ec; cbn [option_map]; intros Hws; [|discriminate Hws].
  injection Hws as Hws.
  specialize (Hinv (hashString url_a) c 0%nat Ec).
  rewrite Hlive, Hws in Hinv. specialize (Hinv (or_introl eq_refl)).
  discriminate Hinv.
Qed.

(** ** Snapshot polling *)

Section PollingFacts.
Context {R : Remote}.

Lemma poll_cascade_unfold ref c snap w1 st :
  heap st !! ref = Some c ->
  captureHTML (cdp c) (metadata c) (world st) = (snap, w1) ->
  poll_cascade ref st = apply_capture ref c snap (set_world st w1).
Proof. intros Hc Hcap. unfold poll_cascade. now rewrite Hc, Hcap. Qed.

(** An unchanged hash: nothing is stored and nothing is sent. *)
Lemma apply_capture_same ref c snap st :
  snapshotHash c = Some (hashString (html snap)) ->
  apply_capture ref c (Some snap) st = st.
Proof.
  intros Hh. unfold apply_capture. now rewrite bool_decide_eq_true_2.
Qed.

(** A changed hash, by cases on the title. *)
Lemma apply_capture_changed ref c snap st :
  snapshotHash c <> Some (hashString (html snap)) ->
  let c1 := store_snapshot c snap (hashString (html snap)) in
  apply_capture ref c (Some snap) st =
  match title_changed snap c1 with
  | Some t =>
      broadcast (snapshot_update (cascade_id c))
        (broadcastCascadeList
           (set_heap st (<[ref := set_chatTitle c1 t]> (heap st))))
  | None =>
      broadcast (snapshot_update (cascade_id c))
        (set_heap st (<[ref := c1]> (heap st)))
  end.
Proof.
  intros Hh. cbv zeta. unfold apply_capture.
  rewrite bool_decide_eq_false_2 by exact Hh.
  destruct (title_changed snap _) as [t|]; [|reflexivity].
  cbn [set_heap heap]. now rewrite list_insert_insert_eq.
Qed.

Lemma title_changed_Some snap c t :
  title_changed snap c = Some t <->
  title snap = Some t /\ t <> [] /\ t <> chatTitle (metadata c).
Proof.
  unfold title_changed. destruct (title snap) as [t0|].
  - destruct t0 as [|x t0]; cbn [is_nil negb andb].
    + split; [discriminate|]. intros ([= <-] & Hne & _). now destruct Hne.
    + destruct (jsstring_eqb (x :: t0) (chatTitle (metadata c))) eqn:E; cbn [negb].
      * apply jsstring_eqb_true in E. split; [discriminate|].
        intros ([= <-] & _ & Hne). now destruct Hne.
      * apply jsstring_eqb_false in E. split.
        -- intros [= <-]. repeat split; [discriminate|exact E].
        -- intros ([= <-] & _). reflexivity.
  - split; [discriminate|]. intros [[=] _].
Qed.

End PollingFacts.

(** C3. A poll of an entry that captures a snapshot replaces the stored
    snapshot and hash, and emits a snapshot-changed event for the entry's
    id, if and only if the hash of the captured HTML differs from the stored
    hash. With a different hash the entry holds the new snapshot and its
    hash afterwards and exactly one snapshot-changed event is sent, for that
    id; with the same hash (in particular when the HTML is byte-identical to
    that of the stored snapshot) the entry is left as it was and nothing is
    sent. *)
Theorem poll_detects_change `{R : Remote}
    (ref : nat) (c : Cascade) (snap : Snap) (w1 : World) (st : State) :
  heap st !! ref = Some c ->
  captureHTML (cdp c) (metadata c) (world st) = (Some snap, w1) ->
  let st' := poll_cascade ref st in
  let hash := hashString (html snap) in
  (snapshotHash c <> Some hash ->
     (exists c', heap st' !! ref = Some c' /\
                 snapshot c' = Some snap /\ snapshotHash c' = Some hash) /\
     (exists others,
        outbox st' = outbox st ++ others ++ [snapshot_update (cascade_id c)] /\
        forall ident, ~ In (snapshot_update ident) others)) /\
  (snapshotHash c = Some hash ->
     heap st' = heap st /\ outbox st' = outbox st) /\
  (forall old,
     snapshot c = Some old -> snapshotHash c = Some (hashString (html old)) ->
     html snap = html old ->
     heap st' = heap st /\ outbox st' = outbox st).
Proof.
  intros Hc Hcap. cbv zeta.
  rewrite (poll_cascade_unfold _ _ _ _ _ Hc Hcap).
  pose proof (lookup_lt_Some _ _ _ Hc) as Hlt.
  assert (Hsame : snapshotHash c = Some (hashString (html snap)) ->
                  heap (apply_capture ref c (Some snap) (set_world st w1)) = heap st /\
                  outbox (apply_capture ref c (Some snap) (set_world st w1)) = outbox st).
  { intros Hh. rewrite apply_capture_same by exact Hh. auto. }
  split; [|split].
  - intros Hh. rewrite apply_capture_changed by exact Hh. cbv zeta.
    destruct (title_changed snap _) as [t|];
      cbn [broadcast broadcastCascadeList set_heap set_world heap outbox].
    + split.
      * eexists. rewrite list_lookup_insert_eq by exact Hlt.
        split; [reflexivity|]. auto.
      * eexists [_]. rewrite <- app_assoc. split; [reflexivity|].
        intros ident [H|[]]. discriminate.
    + split.
      * eexists. rewrite list_lookup_insert_eq by exact Hlt.
        split; [reflexivity|]. auto.
      * exists []. split; [reflexivity|]. intros ident [].
  - exact Hsame.
  - intros old _ Hh Hhtml. apply Hsame. now rewrite Hhtml.
Qed.

Lemma poll_detects_change_witness :
  outbox (polls 2 polling_world) = outbox (polls 1 polling_world) /\
  exists others,
    outbox (polls 3 polling_world) =
      outbox (polls 2 polling_world) ++ others ++ [snapshot_update (hashString url_a)] /\
    forall ident, ~ In (snapshot_update ident) others.
Proof.
  assert (H1 : heap (polls 1 polling_world) !! 0%nat
               = Some {| cascade_id := hashString url_a;
                         cdp := {| ws := 0; contexts := [{| ctx_id := 1 |}];
                                   rootContextId := Some 1 |};
                         metadata := refresh_metadata
                                       {| windowTitle := target_title (window url_a);
                                          chatTitle := []; isActive := false;
                                          app := Antigravity; rootElementId := None;
                                          rootSelector := [] |} chat_found;
                         snapshot := Some (snap_of html_hello None);
                         css := Some [];
                         snapshotHash := Some (hashString html_hello) |})
    by (vm_compute; reflexivity).
  split.
  - refine (proj2 (proj1 (proj2
              (poll_detects_change (R := Scripted.remote) 0 _
                 (snap_of html_hello None) _ (polls 1 polling_world) H1 _)) _)).
    + vm_compute. reflexivity.
    + reflexivity.
  - assert (H2 : heap (polls 2 polling_world) !! 0%nat
                 = heap (polls 1 polling_world) !! 0%nat)
      by (vm_compute; reflexivity).
    rewrite H1 in H2.
    refine (proj2 (proj1
              (poll_detects_change (R := Scripted.remote) 0 _
                 (snap_of html_hello_bang None) _ (polls 2 polling_world) H2 _) _)).
    + vm_compute. reflexivity.
    + vm_compute. discriminate.
Defined.

(** The polling scenario, run: the first capture is stored and announced,
    the identical one is silent, the changed one is announced once. *)
Example polling_scenario :
  map sock_closed (sockets (polls 3 polling_world)) = [false] /\
  skipn 1 (outbox (polls 1 polling_world)) = [snapshot_update (hashString url_a)] /\
  skipn 1 (outbox (polls 2 polling_world)) = [snapshot_update (hashString url_a)] /\
  skipn 1 (outbox (polls 3 polling_world))
    = [snapshot_update (hashString url_a); snapshot_update (hashString url_a)].
Proof. vm_compute. auto. Qed.

(** C10. A poll whose capture has a new hash and carries a non-empty title
    different from the entry's chat title overwrites the chat title with it
    and sends the full list, built with the new title, before the
    snapshot-changed event: polling, too, changes metadata and broadcasts
    the list. *)
Theorem poll_updates_title `{R : Remote}
    (ref : nat) (c : Cascade) (snap : Snap) (t : jsstring) (w1 : World) (st : State) :
  heap st !! ref = Some c ->
  captureHTML (cdp c) (metadata c) (world st) = (Some snap, w1) ->
  snapshotHash c <> Some (hashString (html snap)) ->
  title snap = Some t -> t <> [] -> t <> chatTitle (metadata c) ->
  let st' := poll_cascade ref st in
  heap st' =
    <[ref := set_chatTitle (store_snapshot c snap (hashString (html snap))) t]>
      (heap st) /\
  (exists c', heap st' !! ref = Some c' /\ chatTitle (metadata c') = t) /\
  outbox st' =
    outbox st ++ [cascade_list (map list_item (registry_values st'));
                  snapshot_update (cascade_id c)].
Proof.
  intros Hc Hcap Hh Ht Hne Hdiff. cbv zeta.
  rewrite (poll_cascade_unfold _ _ _ _ _ Hc Hcap).
  pose proof (lookup_lt_Some _ _ _ Hc) as Hlt.
  rewrite apply_capture_changed by exact Hh. cbv zeta.
  assert (Htc : title_changed snap (store_snapshot c snap (hashString (html snap)))
                = Some t).
  { apply title_changed_Some. auto. }
  rewrite Htc.
  cbn [broadcast broadcastCascadeList set_heap set_world heap outbox].
  split; [reflexivity|]. split.
  - eexists. rewrite list_lookup_insert_eq by exact Hlt. split; reflexivity.
  - rewrite <- app_assoc. reflexivity.
Qed.

Lemma poll_updates_title_witness :
  (exists c', heap (polls 1 retitled_world) !! 0%nat = Some c' /\
              chatTitle (metadata c') = js "Refactor parser") /\
  length (outbox (polls 1 retitled_world))
    = (length (outbox (polls 0 retitled_world)) + 2)%nat.
Proof.
  assert (H0 : heap (polls 0 retitled_world) !! 0%nat
               = Some {| cascade_id := hashString url_a;
                         cdp := {| ws := 0; contexts := [{| ctx_id := 1 |}];
                                   rootContextId := Some 1 |};
                         metadata := refresh_metadata
                                       {| windowTitle := target_title (window url_a);
                                          chatTitle := []; isActive := false;
                                          app := Antigravity; rootElementId := None;
                                          rootSelector := [] |} chat_found;
                         snapshot := None;
                         css := Some [];
                         snapshotHash := None |})
    by (vm_compute; reflexivity).
  pose proof (poll_updates_title (R := Scripted.remote) 0 _
                (snap_of html_hello (Some (js "Refactor parser")))
                (js "Refactor parser")
                {| Scripted.listings := []; Scripted.probes := [];
                   Scripted.captures := [] |}
                (polls 0 retitled_world) H0
                ltac:(vm_compute; reflexivity) ltac:(discriminate)
                eq_refl ltac:(discriminate) ltac:(vm_compute; discriminate))
    as (_ & Hentry & Hout).
  split.
  - exact Hentry.
  - change (poll_cascade 0 (polls 0 retitled_world)) with (polls 1 retitled_world) in Hout.
    rewrite Hout, length_app. reflexivity.
Defined.

(** ** The routes *)

Section RouteFacts.
Context {R : Remote}.

Lemma find_first_active (before after : list Cascade) c :
  Forall (fun x => isActive (metadata x) = false) before ->
  isActive (metadata c) = true ->
  find (fun x => isActive (metadata x)) (before ++ c :: after) = Some c.
Proof.
  intros Hb Hc. induction Hb as [|x before Hx _ IH]; simpl.
  - now rewrite Hc.
  - now rewrite Hx.
Qed.

Lemma find_none_active (l : list Cascade) :
  Forall (fun x => isActive (metadata x) = false) l ->
  find (fun x => isActive (metadata x)) l = None.
Proof.
  intros H. induction H as [|x l Hx _ IH]; simpl; [reflexivity|].
  now rewrite Hx.
Qed.


End RouteFacts.

(** C9. [GET /snapshot] answers with the stored snapshot of the first entry,
    in the registry's insertion order, whose metadata marks it active, and
    when no entry is active with that of the first entry; when the selected
    entry has no stored snapshot, or the registry is empty, the answer is
    status 503 with an error body. *)
Theorem get_snapshot_selects `{R : Remote} (st : State) :
  let answer (c : Cascade) :=
    match snapshot c with
    | Some snap => {| status := 200; body := json_snapshot snap |}
    | None => {| status := 503; body := json_error (js "No snapshot") |}
    end in
  (forall before c after,
     registry_values st = before ++ c :: after ->
     Forall (fun x => isActive (metadata x) = false) before ->
     isActive (metadata c) = true ->
     get_snapshot st = answer c) /\
  (forall c rest,
     registry_values st = c :: rest ->
     Forall (fun x => isActive (metadata x) = false) (c :: rest) ->
     get_snapshot st = answer c) /\
  (registry_values st = [] ->
     get_snapshot st = {| status := 503; body := json_error (js "No snapshot") |}).
Proof.
  cbv zeta. unfold get_snapshot, select_active. split; [|split].
  - intros before c after -> Hb Hc. now rewrite find_first_active.
  - intros c rest -> Hall. now rewrite find_none_active.
  - intros ->. reflexivity.
Qed.

Lemma get_snapshot_selects_witness :
  get_snapshot three_entries
  = {| status := 200; body := json_snapshot (snap_of html_hello_bang None) |}.
Proof.
  apply (proj1 (get_snapshot_selects (R := Scripted.remote) three_entries)
           [entry "k1" false (Some (snap_of html_hello None))]
           (entry "k2" true (Some (snap_of html_hello_bang None)))
           [entry "k3" true None]).
  - reflexivity.
  - repeat constructor.
  - reflexivity.
Defined.

(** No active entry: the first entry answers, here without a snapshot. *)
Example get_snapshot_first_entry :
  get_snapshot
    (scripted_state quiet_world []
       [entry "k1" false None; entry "k2" false (Some (snap_of html_hello None))]
       [(js "k1", 0%nat); (js "k2", 1%nat)])
  = {| status := 503; body := json_error (js "No snapshot") |}.
Proof. reflexivity. Qed.




(** * Further properties of the code *)

(** ** [hashString]: shape of the identity, composition, collisions *)

Section HashShape.

Lemma digits36_length fuel n k :
  (1 <= k)%nat -> 0 <= n < 36 ^ Z.of_nat k ->
  (1 <= length (digits36 (S fuel) n) <= k)%nat.
Proof.
  revert n k. induction fuel as [|fuel IH]; intros n k Hk Hn.
  - cbn [digits36]. destruct (n / 36 =? 0); cbn [length]; lia.
  - change (digits36 (S (S fuel)) n)
      with ((n mod 36) :: (if n / 36 =? 0 then [] else digits36 (S fuel) (n / 36))).
    destruct (n / 36 =? 0) eqn:E; cbn [length]; [lia|].
    apply Z.eqb_neq in E.
    destruct k as [|[|k]]; [lia| |].
    + exfalso. apply E. apply Z.div_small. change (36 ^ Z.of_nat 1) with 36 in Hn. lia.
    + assert (Hq : 0 <= n / 36 < 36 ^ Z.of_nat (S k)).
      { split; [apply Z.div_pos; lia|].
        apply Z.div_lt_upper_bound; [lia|].
        rewrite (Nat2Z.inj_succ (S k)), Z.pow_succ_r in Hn by lia. lia. }
      specialize (IH (n / 36) (S k) ltac:(lia) Hq). lia.
Qed.

Lemma digit36_is_base36 d : 0 <= d < 36 -> is_base36_digit (digit36 d).
Proof.
  unfold digit36, is_base36_digit. intros Hd.
  destruct (d <? 10) eqn:E; rewrite ?Z.ltb_lt, ?Z.ltb_ge in E; lia.
Qed.

Lemma radix36_shape n :
  0 <= n <= 2 ^ 31 ->
  (1 <= length (radix36 n) <= 6)%nat /\ Forall is_base36_digit (radix36 n).
Proof.
  intros Hn. unfold radix36. split.
  - rewrite length_map, length_rev. apply digits36_length; [lia|].
    change (36 ^ Z.of_nat 6) with 2176782336. change (2 ^ 31) with 2147483648 in Hn. lia.
  - apply Forall_forall. intros c Hc.
    apply list_elem_of_In, in_map_iff in Hc as (d & <- & Hd).
    apply digit36_is_base36. apply in_rev in Hd. eapply digits36_bounded; eauto.
Qed.

Lemma mod_add_congr (a a' b b' m : Z) :
  a mod m = a' mod m -> b mod m = b' mod m -> (a + b) mod m = (a' + b') mod m.
Proof. intros Ha Hb. now rewrite Zplus_mod, Ha, Hb, <- Zplus_mod. Qed.

Lemma mod_mul_congr (a b b' m : Z) :
  b mod m = b' mod m -> (a * b) mod m = (a * b') mod m.
Proof. intros Hb. now rewrite Zmult_mod, Hb, <- Zmult_mod. Qed.

(** The fold, from any start, against the fold from 0: the start is
    multiplied by 31 once per character. The step is abstract. *)
Lemma fold_left_affine (f : Z -> Z -> Z) (m : Z)
    (step : forall h c, f h c mod m = (31 * h + c) mod m)
    (t : list Z) (h : Z) :
  fold_left f t h mod m = (31 ^ Z.of_nat (length t) * h + fold_left f t 0) mod m.
Proof.
  revert h. induction t as [|c t IH]; intros h.
  - cbn [fold_left length]. f_equal. change (31 ^ Z.of_nat 0) with 1. lia.
  - rewrite !fold_left_cons_step, (IH (f h c)).
    transitivity ((31 ^ Z.of_nat (length t) * (31 * h + c) + fold_left f t 0) mod m).
    { apply mod_add_congr; [|reflexivity]. apply mod_mul_congr, step. }
    transitivity ((31 ^ Z.of_nat (length (c :: t)) * h
                   + (31 ^ Z.of_nat (length t) * (31 * 0 + c) + fold_left f t 0)) mod m).
    { f_equal. cbn [length]. rewrite Nat2Z.inj_succ, Z.pow_succ_r by lia. lia. }
    apply mod_add_congr; [reflexivity|].
    rewrite (IH (f 0 c)).
    apply mod_add_congr; [|reflexivity]. symmetry. apply mod_mul_congr, step.
Qed.

End HashShape.

(** X1. The identity [hashString] yields is a short numeral: an optional
    minus sign followed by one to six characters out of [0-9a-z]. *)
Theorem hashString_shape (str : jsstring) :
  exists sign digits,
    hashString str = sign ++ digits /\
    (sign = [] \/ sign = [45]) /\
    (1 <= length digits <= 6)%nat /\
    Forall is_base36_digit digits.
Proof.
  unfold hashString, toString36.
  pose proof (hash32_range str) as Hr.
  destruct (hash32 str <? 0) eqn:E; rewrite ?Z.ltb_lt, ?Z.ltb_ge in E.
  - exists [45], (radix36 (- hash32 str)). split; [reflexivity|]. split; [auto|].
    apply radix36_shape. lia.
  - exists [], (radix36 (hash32 str)). split; [reflexivity|]. split; [auto|].
    apply radix36_shape. lia.
Qed.

Lemma hash32_app_wrapped (s t : jsstring) :
  hash32 (s ++ t) = to_int32 (31 ^ Z.of_nat (length t) * hash32 s + hash32 t).
Proof.
  apply int32_congruent_eq.
  - apply hash32_range.
  - apply to_int32_range.
  - rewrite to_int32_mod. unfold hash32. rewrite fold_left_app.
    apply (fold_left_affine hash_step (2 ^ 32) hash_step_mod).
Qed.

(** X2. The hash of a concatenation is the hash of the first part times 31
    to the length of the second, plus the hash of the second, wrapped to 32
    bits. *)
Theorem hash32_app (s t : jsstring) :
  hash32 (s ++ t) = to_int32 (31 ^ Z.of_nat (length t) * hash32 s + hash32 t).
Proof. exact (hash32_app_wrapped s t). Qed.

(** X3. The hash has collisions that a two-character edit reaches: wherever
    [Aa] stands in a string, [BB] in its place gives the same hash, so the
    same identity and no detected change. *)
Theorem hashString_collides (pre post : jsstring) :
  hashString (pre ++ js "Aa" ++ post) = hashString (pre ++ js "BB" ++ post).
Proof.
  assert (Htail : hash32 (js "Aa" ++ post) = hash32 (js "BB" ++ post)).
  { rewrite !(hash32_app_wrapped _ post). reflexivity. }
  assert (Hlen : length (js "Aa" ++ post) = length (js "BB" ++ post)).
  { rewrite !length_app. reflexivity. }
  unfold hashString. rewrite !(hash32_app_wrapped pre), Htail, Hlen. reflexivity.
Qed.

(** ** [normalizeText] and the titles the scripts infer *)

Section NormalizeFacts.

Lemma tidy_weaken s : tidy true s -> tidy false s.
Proof.
  destruct s as [|c s]; cbn [tidy]; [auto|].
  destruct (is_space c); [|auto]. intros (_ & [=] & _).
Qed.

Lemma collapse_spaces_tidy b s : tidy b (collapse_spaces b s).
Proof.
  revert b. induction s as [|c s IH]; intros b; cbn [collapse_spaces]; [exact I|].
  destruct (is_space c) eqn:E.
  - destruct b; [apply IH|]. cbn [tidy]. change (is_space 32) with true.
    cbn iota. auto.
  - cbn [tidy]. rewrite E. apply IH.
Qed.

Lemma tidy_collapse_spaces b s : tidy b s -> collapse_spaces b s = s.
Proof.
  revert b. induction s as [|c s IH]; intros b; cbn [collapse_spaces tidy]; [auto|].
  destruct (is_space c) eqn:E.
  - intros (-> & -> & Ht). f_equal. now apply IH.
  - intros Ht. f_equal. now apply IH.
Qed.

Lemma tidy_app_l b s t : tidy b (s ++ t) -> tidy b s.
Proof.
  revert b. induction s as [|c s IH]; intros b; [intros _; exact I|].
  change ((c :: s) ++ t) with (c :: (s ++ t)). cbn [tidy].
  destruct (is_space c).
  - intros (H1 & H2 & H3). eauto.
  - apply IH.
Qed.

(** [trim_start] drops a run of white space and stops at the first other
    character. *)
Lemma trim_start_split s :
  exists spaces,
    s = spaces ++ trim_start s /\
    Forall (fun c => is_space c = true) spaces /\
    (forall c rest, trim_start s = c :: rest -> is_space c = false).
Proof.
  induction s as [|c s (spaces & Hs & Hsp & Hhead)]; cbn [trim_start].
  - exists []. repeat split; [constructor|discriminate].
  - destruct (is_space c) eqn:E.
    + exists (c :: spaces). split; [cbn; now f_equal|].
      split; [now constructor|exact Hhead].
    + exists []. split; [reflexivity|]. split; [constructor|].
      intros c' rest [= <- <-]. exact E.
Qed.

Lemma trim_start_fixed s :
  (forall c rest, s = c :: rest -> is_space c = false) -> trim_start s = s.
Proof.
  destruct s as [|c s]; [reflexivity|]. intros H. cbn [trim_start].
  now rewrite (H c s eq_refl).
Qed.

Lemma tidy_trim_start b s : tidy b s -> tidy false (trim_start s).
Proof.
  revert b. induction s as [|c s IH]; intros b; cbn [trim_start]; [auto|].
  destruct (is_space c) eqn:E; cbn [tidy]; rewrite E.
  - intros (_ & _ & Ht). eauto.
  - auto.
Qed.

(** What [trim] keeps: a middle part of the string, between two runs of
    white space, with no white space at its ends. *)
Lemma trim_split s :
  exists before after,
    s = before ++ trim s ++ after /\
    Forall (fun c => is_space c = true) before /\
    Forall (fun c => is_space c = true) after /\
    trimmed_ends (trim s).
Proof.
  unfold trim.
  destruct (trim_start_split s) as (before & Hs & Hb & Hhead).
  destruct (trim_start_split (rev (trim_start s))) as (after & Hr & Ha & Hlast).
  set (core := trim_start (rev (trim_start s))) in *.
  assert (Hmid : trim_start s = rev core ++ rev after).
  { rewrite <- rev_app_distr, <- Hr. now rewrite rev_involutive. }
  exists before, (rev after). split; [now rewrite <- Hmid|].
  split; [exact Hb|]. split.
  - apply Forall_forall. intros c Hc.
    rewrite Forall_forall in Ha. apply Ha. apply list_elem_of_In.
    apply list_elem_of_In in Hc. now apply in_rev.
  - split.
    + intros c rest Hc.
      destruct core as [|x core'] eqn:Ec; [discriminate Hc|].
      apply (Hhead c (rest ++ rev after)). rewrite Hmid, Hc. reflexivity.
    + intros front c Hc. apply (Hlast c (rev front)).
      apply (f_equal (@rev Z)) in Hc. rewrite rev_involutive in Hc.
      rewrite Hc, rev_app_distr. reflexivity.
Qed.

Lemma trim_fixed s : trimmed_ends s -> trim s = s.
Proof.
  intros [Hhead Hlast]. unfold trim.
  rewrite (trim_start_fixed s Hhead).
  rewrite trim_start_fixed; [apply rev_involutive|].
  intros c rest Hc. apply (Hlast (rev rest) c).
  apply (f_equal (@rev Z)) in Hc. rewrite rev_involutive in Hc.
  rewrite Hc. reflexivity.
Qed.

Lemma trim_length s : (length (trim s) <= length s)%nat.
Proof.
  destruct (trim_split s) as (before & after & Hs & _).
  rewrite Hs at 2. rewrite !length_app. lia.
Qed.

Lemma tidy_trim s : tidy false s -> tidy false (trim s).
Proof.
  intros Ht.
  destruct (trim_start_split s) as (before & Hs & _ & _).
  pose proof (tidy_trim_start false s Ht) as Hts.
  destruct (trim_split s) as (b & a & Hsplit & _).
  unfold trim in *.
  destruct (trim_start_split (rev (trim_start s))) as (after & Hr & _ & _).
  set (core := trim_start (rev (trim_start s))) in *.
  assert (Hmid : trim_start s = rev core ++ rev after).
  { rewrite <- rev_app_distr, <- Hr. now rewrite rev_involutive. }
  rewrite Hmid in Hts. now apply tidy_app_l in Hts.
Qed.

End NormalizeFacts.

Lemma normalizeText_normal_facts (value : jsstring) :
  normalizeText (normalizeText value) = normalizeText value /\
  tidy false (normalizeText value) /\
  trimmed_ends (normalizeText value).
Proof.
  assert (Ht : tidy false (normalizeText value)).
  { unfold normalizeText. apply tidy_trim, collapse_spaces_tidy. }
  assert (He : trimmed_ends (normalizeText value)).
  { unfold normalizeText.
    destruct (trim_split (collapse_spaces false value)) as (_ & _ & _ & _ & _ & H).
    exact H. }
  repeat split; try assumption; try apply He.
  unfold normalizeText at 1.
  rewrite (tidy_collapse_spaces false _ Ht). now apply trim_fixed.
Qed.

(** X4. The text [normalizeText] returns is normalized: normalizing it
    again changes nothing, its only white space is single plain spaces
    between other characters, and it neither begins nor ends with white
    space; the title filter gives the same verdict on a text and on its
    normalization. *)
Theorem normalizeText_normal (value : jsstring) :
  normalizeText (normalizeText value) = normalizeText value /\
  tidy false (normalizeText value) /\
  trimmed_ends (normalizeText value) /\
  isGoodTitle (normalizeText value) = isGoodTitle value.
Proof.
  destruct (normalizeText_normal_facts value) as (Hid & Ht & He).
  repeat split; try assumption; try apply He.
  unfold isGoodTitle. cbv zeta. now rewrite Hid.
Qed.

Section InferFacts.
Import Infer.

Lemma or_else_Some a b t :
  or_else a b = Some t -> (a = Some t /\ t <> []) \/ b = Some t.
Proof.
  unfold or_else. destruct a as [[|c s]|]; auto.
  intros [= <-]. left. split; [reflexivity|discriminate].
Qed.

Lemma or_else_total a d : exists t, or_else a (Some d) = Some t.
Proof. unfold or_else. destruct a as [[|c s]|]; eauto. Qed.

Lemma or_else_l a b t : a = Some t -> t <> [] -> or_else a b = Some t.
Proof. intros -> Hne. destruct t; [now destruct Hne|reflexivity]. Qed.

(** A text that passed the filter after normalization is a normalized text
    of 3 to 80 characters that passes the filter. *)
Lemma good_normalized x :
  isGoodTitle (normalizeText x) = true ->
  isGoodTitle (normalizeText x) = true /\
  normalizeText (normalizeText x) = normalizeText x /\
  (3 <= length (normalizeText x) <= 80)%nat.
Proof.
  intros Hg. destruct (normalizeText_normal_facts x) as (Hid & _).
  split; [exact Hg|]. split; [exact Hid|].
  unfold isGoodTitle in Hg. cbv zeta in Hg. rewrite Hid in Hg.
  destruct ((length (normalizeText x) <? 3)%nat
            || (80 <? length (normalizeText x))%nat) eqn:E; [discriminate Hg|].
  apply orb_false_iff in E as [E1 E2].
  apply Nat.ltb_ge in E1, E2. lia.
Qed.

Lemma explicit_title_good label t :
  explicit_title label = Some t ->
  isGoodTitle t = true /\ normalizeText t = t /\ (3 <= length t <= 80)%nat.
Proof.
  unfold explicit_title. cbv zeta.
  destruct (isGoodTitle (normalizeText _)) eqn:E; [|discriminate].
  intros [= <-]. now apply good_normalized.
Qed.

Lemma pickFirstMessage_good human first t :
  pickFirstMessage human first = Some t ->
  isGoodTitle t = true /\ normalizeText t = t /\ (3 <= length t <= 80)%nat.
Proof.
  unfold pickFirstMessage. cbv zeta.
  assert (Hgen : match first with
                 | Some t0 => if isGoodTitle (normalizeText t0)
                              then Some (normalizeText t0) else None
                 | None => None
                 end = Some t ->
                 isGoodTitle t = true /\ normalizeText t = t /\
                 (3 <= length t <= 80)%nat).
  { destruct first as [t0|]; [|discriminate].
    destruct (isGoodTitle (normalizeText t0)) eqn:E; [|discriminate].
    intros [= <-]. now apply good_normalized. }
  destruct human as [h|]; [|exact Hgen].
  destruct (isGoodTitle (normalizeText h)) eqn:E; [|exact Hgen].
  intros [= <-]. now apply good_normalized.
Qed.

Lemma heading_title_Some found t :
  heading_title found = Some t ->
  exists h, In (Some h) found /\ t = trim h /\ (2 < length h < 50)%nat.
Proof.
  induction found as [|[h|] found IH]; cbn [heading_title]; [discriminate| |].
  - destruct ((2 <? length h)%nat && (length h <? 50)%nat) eqn:E.
    + intros [= <-]. exists h. split; [now left|]. split; [reflexivity|].
      apply andb_true_iff in E as [E1 E2]. apply Nat.ltb_lt in E1, E2. lia.
    + intros H. destruct (IH H) as (h' & Hin & Ht & Hl).
      exists h'. split; [now right|auto].
  - intros H. destruct (IH H) as (h' & Hin & Ht & Hl).
    exists h'. split; [now right|auto].
Qed.

(** A tidy text has no line break, so its first line is the text. *)
Lemma tidy_first_line b s : tidy b s -> first_line s = s.
Proof.
  revert b. induction s as [|c s IH]; intros b; cbn [tidy first_line]; [auto|].
  destruct (c =? 10) eqn:E.
  - apply Z.eqb_eq in E. subst c. change (is_space 10) with true. cbn iota.
    intros ([=] & _).
  - destruct (is_space c); [intros (_ & _ & Ht)|intros Ht]; f_equal; eauto.
Qed.

Lemma first_line_no_break s : ~ In 10 (first_line s).
Proof.
  induction s as [|c s IH]; cbn [first_line]; [intros []|].
  destruct (c =? 10) eqn:E; [intros []|].
  apply Z.eqb_neq in E. intros [H|H]; [congruence|auto].
Qed.

Lemma trim_subset s c : In c (trim s) -> In c s.
Proof.
  destruct (trim_split s) as (before & after & Hs & _).
  intros Hc. rewrite Hs. apply in_or_app. right. apply in_or_app. now left.
Qed.

End InferFacts.

(** X5. A title that the capture script reports ([explicitTitle ||
    pickFirstMessage(root)]), and so any title a poll writes into an
    entry's metadata, passed the title filter: it is a normalized text of 3
    to 80 characters that is no boilerplate. The same holds for what the
    explicit label and the first-message heuristic return on their own. *)
Theorem inferred_title_is_good (label human first : option jsstring) (t : jsstring) :
  Infer.capture_title label human first = Some t \/
  Infer.explicit_title label = Some t \/
  Infer.pickFirstMessage human first = Some t ->
  isGoodTitle t = true /\ normalizeText t = t /\ (3 <= length t <= 80)%nat.
Proof.
  intros [H|[H|H]].
  - unfold Infer.capture_title in H. apply or_else_Some in H as [[H _]|H].
    + now apply explicit_title_good in H.
    + now apply pickFirstMessage_good in H.
  - now apply explicit_title_good in H.
  - now apply pickFirstMessage_good in H.
Qed.

Lemma inferred_title_is_good_witness :
  Infer.capture_title (Some (js "New Chat")) None (Some (9 :: js " Fix   bug ")) = Some (js "Fix bug") /\
  isGoodTitle (js "Fix bug") = true.
Proof.
  split; [reflexivity|].
  apply (inferred_title_is_good (Some (js "New Chat")) None
           (Some (9 :: js " Fix   bug ")) (js "Fix bug")).
  left. reflexivity.
Defined.

(** X6. The chat title of the antigravity shape is never empty. It is the
    explicit label whenever that label passes the filter; otherwise a good
    first-message text, else the trimmed text of a heading element of 3 to
    49 characters, else "Agent". *)
Theorem antigravity_chatTitle_cases
    (label human first : option jsstring) (headings : list (option jsstring)) :
  let chatTitle := Infer.antigravity_chatTitle label human first headings in
  chatTitle <> [] /\
  (forall t, Infer.explicit_title label = Some t -> chatTitle = t) /\
  (isGoodTitle chatTitle = true \/
   (exists h, In (Some h) headings /\ chatTitle = trim h /\ (2 < length h < 50)%nat) \/
   chatTitle = js "Agent").
Proof.
  cbv zeta. unfold Infer.antigravity_chatTitle.
  destruct (or_else_total
              (Infer.or_else (Infer.or_else (Infer.explicit_title label)
                                (Infer.pickFirstMessage human first))
                 (Infer.heading_title headings))
              (js "Agent")) as [r E].
  rewrite E. pose proof E as E0.
  apply or_else_Some in E as [[E Hne]|E].
  - split; [exact Hne|]. split.
    + intros t Ht. pose proof (explicit_title_good _ _ Ht) as (_ & _ & Hl).
      assert (Hnt : t <> []) by (intros ->; cbn in Hl; lia).
      rewrite (or_else_l _ (Infer.pickFirstMessage human first) t Ht Hnt) in E0.
      rewrite (or_else_l _ (Infer.heading_title headings) t eq_refl Hnt) in E0.
      rewrite (or_else_l _ (Some (js "Agent")) t eq_refl Hnt) in E0.
      congruence.
    + apply or_else_Some in E as [[E _]|E].
      * left. apply or_else_Some in E as [[E _]|E].
        -- now apply explicit_title_good in E.
        -- now apply pickFirstMessage_good in E.
      * right. left. now apply heading_title_Some.
  - injection E as <-. split; [discriminate|]. split; [|auto].
    intros t Ht. pose proof (explicit_title_good _ _ Ht) as (_ & _ & Hl).
    assert (Hnt : t <> []) by (intros ->; cbn in Hl; lia).
    rewrite (or_else_l _ (Infer.pickFirstMessage human first) t Ht Hnt) in E0.
    rewrite (or_else_l _ (Infer.heading_title headings) t eq_refl Hnt) in E0.
    rewrite (or_else_l _ (Some (js "Agent")) t eq_refl Hnt) in E0.
    congruence.
Qed.

Lemma antigravity_chatTitle_cases_witness :
  Infer.antigravity_chatTitle (Some (js "  Refactor   parser ")) None None
    [Some (js "Antigravity")] = js "Refactor parser".
Proof.
  apply (proj1 (proj2 (antigravity_chatTitle_cases
                         (Some (js "  Refactor   parser ")) None None
                         [Some (js "Antigravity")]))).
  reflexivity.
Defined.

(** Three spaces in a heading pass the length test and trim to nothing: the
    title falls through to "Agent". *)
Example antigravity_blank_heading :
  Infer.antigravity_chatTitle None None None [Some (js "   "); Some (js "Chat with agent")]
  = js "Agent".
Proof. reflexivity. Qed.

(** X7. The chat title of the cursor shape has at least two characters, no
    line break and no white space at its ends; it is the explicit label
    whenever that label passes the filter, and "Cursor Chat" when nothing
    usable was found. *)
Theorem cursor_chatTitle_cases (label history human first header : option jsstring) :
  let chatTitle := Infer.cursor_chatTitle label history human first header in
  (2 <= length chatTitle)%nat /\
  ~ In 10 chatTitle /\
  trimmed_ends chatTitle /\
  (forall t, Infer.explicit_title label = Some t -> chatTitle = t).
Proof.
  cbv zeta. unfold Infer.cursor_chatTitle. cbv zeta.
  set (chosen := Infer.or_else _ (Some [])).
  set (inferredTitle := trim (Infer.first_line _)).
  assert (Hgen : forall s, let r := trim (Infer.first_line s) in
                 (2 <= length (if negb (is_nil r) && (1 <? length r)%nat
                               then r else js "Cursor Chat"))%nat /\
                 ~ In 10 (if negb (is_nil r) && (1 <? length r)%nat
                          then r else js "Cursor Chat") /\
                 trimmed_ends (if negb (is_nil r) && (1 <? length r)%nat
                               then r else js "Cursor Chat")).
  { intros s r.
    destruct (negb (is_nil r) && (1 <? length r)%nat) eqn:E.
    - apply andb_true_iff in E as [_ E]. apply Nat.ltb_lt in E.
      split; [lia|]. split.
      + intros Hin. apply trim_subset in Hin. now apply first_line_no_break in Hin.
      + destruct (trim_split (Infer.first_line s)) as (_ & _ & _ & _ & _ & H). exact H.
    - split; [cbn; lia|]. split.
      + cbn. intuition discriminate.
      + split.
        * intros c rest [= <- _]. reflexivity.
        * intros front c Hc.
          apply (f_equal (@rev Z)) in Hc. rewrite rev_app_distr in Hc.
          cbn in Hc. injection Hc as <- _. reflexivity. }
  destruct (Hgen (match chosen with Some t => t | None => [] end)) as (H1 & H2 & H3).
  fold inferredTitle in H1, H2, H3.
  split; [exact H1|]. split; [exact H2|]. split; [exact H3|].
  intros t Ht.
  pose proof (explicit_title_good _ _ Ht) as (_ & Hn & Hl).
  assert (Hnt : t <> []) by (intros ->; cbn in Hl; lia).
  assert (Hc : chosen = Some t).
  { unfold chosen.
    rewrite (or_else_l _ (Infer.trimmed history) t Ht Hnt).
    rewrite (or_else_l _ (Infer.pickFirstMessage human first) t eq_refl Hnt).
    rewrite (or_else_l _ (Infer.trimmed header) t eq_refl Hnt).
    now rewrite (or_else_l _ (Some []) t eq_refl Hnt). }
  assert (Hi : inferredTitle = t).
  { unfold inferredTitle. rewrite Hc.
    destruct (normalizeText_normal_facts t) as (_ & Htidy & Hends).
    rewrite Hn in Htidy, Hends.
    rewrite (tidy_first_line false t Htidy). now apply trim_fixed. }
  rewrite Hi.
  destruct t as [|a [|b t]]; cbn in Hl; try lia. reflexivity.
Qed.

Lemma cursor_chatTitle_cases_witness :
  Infer.cursor_chatTitle (Some (js "Fix login")) (Some (js "older chat")) None None None
  = js "Fix login".
Proof.
  apply (proj2 (proj2 (proj2 (cursor_chatTitle_cases
           (Some (js "Fix login")) (Some (js "older chat")) None None None)))).
  reflexivity.
Defined.

(** A history entry of several lines gives its first line; a single
    character gives the fallback. *)
Example cursor_history_first_line :
  Infer.cursor_chatTitle None (Some (js " Plan trip" ++ 10 :: js "yesterday")) None None None
  = js "Plan trip" /\
  Infer.cursor_chatTitle None (Some (js "x")) None None None = js "Cursor Chat".
Proof. split; reflexivity. Qed.

(** ** The protocol session's listeners *)

Section WireFacts.
Context {V : Type}.
Import Wire.

(** What every reachable session satisfies. *)
Local Abbreviation inv s :=
  (NoDup (pending s) /\ Forall (fun i => 1 <= i < idCounter s) (pending s) /\
   1 <= idCounter s).

Lemma call_inv (s : Session) : inv s -> inv (snd (call s)).
Proof.
  intros (Hnd & Hall & Hpos). cbn [call snd pending idCounter].
  split; [|split; [|lia]].
  - apply NoDup_app. split; [exact Hnd|]. split; [|apply NoDup_singleton].
    intros i Hi Hi'. apply list_elem_of_singleton in Hi'. subst i.
    rewrite Forall_forall in Hall. specialize (Hall _ Hi). lia.
  - apply Forall_app. split.
    + eapply Forall_impl; [exact Hall|]. cbn. intros i Hi. lia.
    + apply Forall_singleton. lia.
Qed.

Lemma deliver_inv (m : Message V) (s : Session) : inv s -> inv (snd (deliver m s)).
Proof.
  intros (Hnd & Hall & Hpos). cbn [deliver snd pending idCounter].
  split; [|split; [|exact Hpos]].
  - now apply NoDup_filter.
  - rewrite Forall_forall in *. intros i Hi.
    apply list_elem_of_filter in Hi as [_ Hi]. auto.
Qed.

Lemma run_inv (steps : list (Step V)) (s : Session) : inv s -> inv (run steps s).
Proof.
  revert s. induction steps as [|[|m] steps IH]; intros s Hs; cbn [run].
  - exact Hs.
  - apply IH, call_inv, Hs.
  - apply IH, deliver_inv, Hs.
Qed.

Lemma filter_answers_absent (m : Message V) (l : list Z) :
  (forall i, In i l -> answers m i = false) ->
  filter (fun id => answers m id = true) l = [] /\
  filter (fun id => answers m id = false) l = l.
Proof.
  induction l as [|a l IH]; intros H; [split; reflexivity|].
  assert (Ha : answers m a = false) by (apply H; now left).
  destruct IH as [IH1 IH2]; [intros i Hi; apply H; now right|].
  split.
  - rewrite filter_cons_False by congruence. exact IH1.
  - rewrite filter_cons_True by exact Ha. now rewrite IH2.
Qed.

Lemma answers_iff (m : Message V) i id :
  msg_id m = Some i -> (answers m id = true <-> id = i).
Proof.
  intros Hm. unfold answers. rewrite Hm, Z.eqb_eq. intuition.
Qed.

Lemma remove_first_absent x ctxs :
  ~ In x (map ctx_id ctxs) -> remove_first x ctxs = ctxs.
Proof.
  induction ctxs as [|c ctxs IH]; cbn [remove_first map In]; [reflexivity|].
  intros H. destruct (ctx_id c =? x) eqn:E.
  - apply Z.eqb_eq in E. tauto.
  - f_equal. apply IH. tauto.
Qed.

Lemma remove_first_unique x ctxs :
  NoDup (map ctx_id ctxs) ->
  remove_first x ctxs = filter (fun c => ctx_id c <> x) ctxs /\
  ~ In x (map ctx_id (remove_first x ctxs)).
Proof.
  induction ctxs as [|c ctxs IH]; cbn [remove_first map]; intros Hnd.
  - split; [reflexivity|intros []].
  - apply NoDup_cons in Hnd as [Hc Hnd]. rewrite list_elem_of_In in Hc.
    destruct (ctx_id c =? x) eqn:E.
    + apply Z.eqb_eq in E. subst x.
      rewrite filter_cons_False by tauto.
      split; [|exact Hc].
      rewrite <- (proj1 (IH Hnd)). symmetry. now apply remove_first_absent.
    + apply Z.eqb_neq in E. rewrite filter_cons_True by exact E.
      destruct (IH Hnd) as [IH1 IH2]. split; [now rewrite IH1|].
      cbn [map In]. tauto.
Qed.

End WireFacts.

(** X8. Call ids are issued 1, 2, 3, ... and never reused: in every state a
    session can reach, the ids of the calls in flight are distinct and were
    all issued earlier, so the id of the next call is carried by no call in
    flight. *)
Theorem call_ids_never_collide {V : Type} (steps : list (Wire.Step V)) :
  let s := Wire.run steps Wire.fresh in
  NoDup (Wire.pending s) /\
  Forall (fun i => 1 <= i < Wire.idCounter s) (Wire.pending s) /\
  ~ In (fst (Wire.call s)) (Wire.pending s) /\
  Wire.idCounter (snd (Wire.call s)) = fst (Wire.call s) + 1.
Proof.
  cbv zeta.
  assert (H : NoDup (Wire.pending (Wire.run steps Wire.fresh)) /\
              Forall (fun i => 1 <= i < Wire.idCounter (Wire.run steps Wire.fresh))
                (Wire.pending (Wire.run steps Wire.fresh)) /\
              1 <= Wire.idCounter (Wire.run steps Wire.fresh)).
  { apply run_inv. cbn. split; [apply NoDup_nil_2|]. split; [constructor|lia]. }
  destruct H as (Hnd & Hall & _).
  split; [exact Hnd|]. split; [exact Hall|]. split; [|reflexivity].
  cbn [Wire.call fst]. intros Hin.
  rewrite Forall_forall in Hall. apply list_elem_of_In in Hin.
  specialize (Hall _ Hin). lia.
Qed.

(** X9. A reply settles the one call in flight that carries its id, with
    the reply's error if it has one and with its result otherwise, and
    detaches that call's listener; the other calls stay in flight in their
    order. A reply whose id no call in flight carries (a second reply to the
    same call included) and a message without an id settle nothing. *)
Theorem reply_settles_its_call {V : Type} (m : Wire.Message V) (s : Wire.Session) :
  NoDup (Wire.pending s) ->
  (forall i before after,
     Wire.msg_id m = Some i -> Wire.pending s = before ++ i :: after ->
     fst (Wire.deliver m s) = [(i, Wire.settle m)] /\
     Wire.pending (snd (Wire.deliver m s)) = before ++ after /\
     fst (Wire.deliver m (snd (Wire.deliver m s))) = []) /\
  ((forall i, Wire.msg_id m = Some i -> ~ In i (Wire.pending s)) ->
     fst (Wire.deliver m s) = [] /\
     Wire.pending (snd (Wire.deliver m s)) = Wire.pending s).
Proof.
  intros Hnd. split.
  - intros i before after Hm Hp.
    rewrite Hp in Hnd. apply NoDup_app in Hnd as (_ & Hdisj & Hnd2).
    apply NoDup_cons in Hnd2 as [Hia _].
    assert (Hb : forall j, In j before -> Wire.answers m j = false).
    { intros j Hj. apply not_true_iff_false. rewrite (answers_iff m i j Hm).
      intros ->. apply (Hdisj i); [now apply list_elem_of_In|]. now left. }
    assert (Ha : forall j, In j after -> Wire.answers m j = false).
    { intros j Hj. apply not_true_iff_false. rewrite (answers_iff m i j Hm).
      intros ->. apply Hia. now apply list_elem_of_In. }
    assert (Hi : Wire.answers m i = true) by now apply (answers_iff m i i Hm).
    destruct (filter_answers_absent m before Hb) as [Hb1 Hb2].
    destruct (filter_answers_absent m after Ha) as [Ha1 Ha2].
    assert (Hrest : Wire.pending (snd (Wire.deliver m s)) = before ++ after).
    { cbn [Wire.deliver snd Wire.pending]. rewrite Hp, filter_app, Hb2.
      rewrite filter_cons_False by (rewrite Hi; discriminate). now rewrite Ha2. }
    split; [|split; [exact Hrest|]].
    + cbn [Wire.deliver fst]. rewrite Hp, filter_app, Hb1.
      rewrite filter_cons_True by exact Hi. now rewrite Ha1.
    + unfold Wire.deliver at 1. cbn [fst]. rewrite Hrest, filter_app, Hb1, Ha1.
      reflexivity.
  - intros Habs.
    assert (H : forall j, In j (Wire.pending s) -> Wire.answers m j = false).
    { intros j Hj. unfold Wire.answers.
      destruct (Wire.msg_id m) as [i|] eqn:Hm; [|reflexivity].
      apply Z.eqb_neq. intros ->. now apply (Habs j). }
    destruct (filter_answers_absent m _ H) as [H1 H2].
    cbn [Wire.deliver fst snd Wire.pending]. now rewrite H1, H2.
Qed.

Lemma reply_settles_its_call_witness :
  fst (Wire.deliver (reply 2 None (Some 7))
         (snd (Wire.call (snd (Wire.call (snd (Wire.call Wire.fresh)))))))
  = [(2, Wire.Resolved (Some 7))].
Proof.
  refine (proj1 (proj1 (reply_settles_its_call (reply 2 None (Some 7))
            (snd (Wire.call (snd (Wire.call (snd (Wire.call Wire.fresh))))))
            _) 2 [1] [3] eq_refl eq_refl)).
  cbn. repeat (apply NoDup_cons; split; [rewrite list_elem_of_In; cbn; lia|]).
  apply NoDup_nil_2.
Defined.

(** X10. The context list follows the lifecycle events: a created context
    is appended; with distinct context ids, a destroyed context is removed
    and all others stay in order, so none with that id remains; destroying
    an id that is not listed changes nothing, creating a context and then
    destroying it gives the list back, and a message that is no lifecycle
    event (a reply, any other event) leaves the list as it is. *)
Theorem contexts_follow_events {V : Type} (s : Wire.Session) :
  (forall c, Wire.known (snd (Wire.deliver (contextCreated (V := V) c) s))
             = Wire.known s ++ [c]) /\
  (forall x, NoDup (map ctx_id (Wire.known s)) ->
     Wire.known (snd (Wire.deliver (contextDestroyed (V := V) x) s))
       = filter (fun c => ctx_id c <> x) (Wire.known s) /\
     ~ In x (map ctx_id (Wire.known (snd (Wire.deliver (contextDestroyed (V := V) x) s))))) /\
  (forall x, ~ In x (map ctx_id (Wire.known s)) ->
     Wire.known (snd (Wire.deliver (contextDestroyed (V := V) x) s)) = Wire.known s) /\
  (forall c, ~ In (ctx_id c) (map ctx_id (Wire.known s)) ->
     Wire.known (snd (Wire.deliver (contextDestroyed (V := V) (ctx_id c))
                        (snd (Wire.deliver (contextCreated (V := V) c) s))))
       = Wire.known s) /\
  (forall m : Wire.Message V,
     Wire.msg_method m <> Some (js "Runtime.executionContextCreated") ->
     Wire.msg_method m <> Some (js "Runtime.executionContextDestroyed") ->
     Wire.known (snd (Wire.deliver m s)) = Wire.known s).
Proof.
  assert (Hc : forall c ctxs, Wire.track (contextCreated (V := V) c) ctxs = ctxs ++ [c])
    by reflexivity.
  assert (Hd : forall x ctxs, Wire.track (contextDestroyed (V := V) x) ctxs
                              = Wire.remove_first x ctxs) by reflexivity.
  cbn [Wire.deliver snd Wire.known].
  split; [intros c; apply Hc|].
  split; [intros x Hnd; rewrite Hd; now apply remove_first_unique|].
  split; [intros x Hx; rewrite Hd; now apply remove_first_absent|].
  split.
  - intros c Hx. rewrite Hd, Hc.
    induction (Wire.known s) as [|c0 l IH].
    + change ([] ++ [c]) with [c]. cbn [Wire.remove_first]. now rewrite Z.eqb_refl.
    + change ((c0 :: l) ++ [c]) with (c0 :: (l ++ [c])). cbn [Wire.remove_first].
      cbn [map In] in Hx. destruct (ctx_id c0 =? ctx_id c) eqn:E.
      * apply Z.eqb_eq in E. tauto.
      * f_equal. apply IH. tauto.
  - intros m H1 H2. unfold Wire.track.
    destruct (Wire.msg_method m) as [name|]; [|reflexivity].
    destruct (jsstring_eqb name (js "Runtime.executionContextCreated")) eqn:E1.
    { apply jsstring_eqb_true in E1. congruence. }
    destruct (jsstring_eqb name (js "Runtime.executionContextDestroyed")) eqn:E2.
    { apply jsstring_eqb_true in E2. congruence. }
    reflexivity.
Qed.

Lemma contexts_follow_events_witness :
  Wire.known (snd (Wire.deliver (contextDestroyed (V := Z) 5)
      {| Wire.idCounter := 2; Wire.pending := [];
         Wire.known := [{| ctx_id := 3 |}; {| ctx_id := 5 |}; {| ctx_id := 8 |}] |}))
  = [{| ctx_id := 3 |}; {| ctx_id := 8 |}].
Proof.
  refine (proj1 (proj1 (proj2 (contexts_follow_events (V := Z)
            {| Wire.idCounter := 2; Wire.pending := [];
               Wire.known := [{| ctx_id := 3 |}; {| ctx_id := 5 |}; {| ctx_id := 8 |}] |}))
            5 _)).
  cbn. repeat (apply NoDup_cons; split; [rewrite list_elem_of_In; cbn; lia|]).
  apply NoDup_nil_2.
Defined.

(** ** What a discovery pass keeps *)

#[local] Arguments extractMetadata : simpl never.
#[local] Arguments captureCSS : simpl never.
#[local] Arguments captureHTML : simpl never.
#[local] Arguments hashString : simpl never.

Section FrameFacts.
Context {R : Remote}.

Lemma kept_by_discover_refl c : kept_by_discover c c.
Proof. unfold kept_by_discover. tauto. Qed.

Lemma kept_by_discover_trans a b c :
  kept_by_discover a b -> kept_by_discover b c -> kept_by_discover a c.
Proof. unfold kept_by_discover. intuition congruence. Qed.

Lemma kept_by_polling_refl c : kept_by_polling c c.
Proof. unfold kept_by_polling. tauto. Qed.

Lemma kept_by_polling_trans a b c :
  kept_by_polling a b -> kept_by_polling b c -> kept_by_polling a c.
Proof. unfold kept_by_polling. intuition congruence. Qed.

Section Keep.
Variable keep : Cascade -> Cascade -> Prop.
Hypothesis keep_refl : forall c, keep c c.
Hypothesis keep_trans : forall a b c, keep a b -> keep b c -> keep a c.

Lemma heap_keeps_same st st' : heap st' = heap st -> heap_keeps keep st st'.
Proof. intros E ref c Hc. exists c. rewrite E. auto. Qed.

Lemma heap_keeps_trans st1 st2 st3 :
  heap_keeps keep st1 st2 -> heap_keeps keep st2 st3 -> heap_keeps keep st1 st3.
Proof.
  intros H12 H23 ref c Hc.
  destruct (H12 ref c Hc) as (c2 & Hc2 & Hk2).
  destruct (H23 ref c2 Hc2) as (c3 & Hc3 & Hk3). eauto.
Qed.

Lemma heap_keeps_insert st st' ref c c' :
  heap st !! ref = Some c -> keep c c' ->
  heap st' = <[ref := c']> (heap st) ->
  heap_keeps keep st st'.
Proof.
  intros Hc Hk E r x Hx. rewrite E.
  destruct (decide (ref = r)) as [->|Hne].
  - exists c'. rewrite list_lookup_insert_eq by (eapply lookup_lt_Some; eauto).
    split; [reflexivity|]. congruence.
  - exists x. rewrite list_lookup_insert_ne by exact Hne. auto.
Qed.

Lemma heap_keeps_app st st' new :
  heap st' = heap st ++ new -> heap_keeps keep st st'.
Proof.
  intros E r x Hx. exists x. rewrite E.
  rewrite lookup_app_l by (eapply lookup_lt_Some; eauto). auto.
Qed.

Lemma heap_keeps_length st st' :
  heap_keeps keep st st' -> (length (heap st) <= length (heap st'))%nat.
Proof.
  intros H. destruct (heap st) as [|c l] eqn:E using rev_ind; [cbn; lia|].
  clear IHl. destruct (H (length l) c) as (c' & Hc' & _).
  { rewrite E. apply list_lookup_middle. reflexivity. }
  apply lookup_lt_Some in Hc'. rewrite length_app. cbn. lia.
Qed.

End Keep.

Lemma sockets_kept_same st st' : sockets st' = sockets st -> sockets_kept st st'.
Proof. intros E sock s Hs. exists s. rewrite E. auto. Qed.

Lemma sockets_kept_trans st1 st2 st3 :
  sockets_kept st1 st2 -> sockets_kept st2 st3 -> sockets_kept st1 st3.
Proof.
  intros H12 H23 sock s Hs.
  destruct (H12 sock s Hs) as (s2 & Hs2 & Hu2 & Hc2).
  destruct (H23 sock s2 Hs2) as (s3 & Hs3 & Hu3 & Hc3).
  exists s3. split; [exact Hs3|]. split; [congruence|auto].
Qed.

Lemma sockets_kept_app st st' new :
  sockets st' = sockets st ++ new -> sockets_kept st st'.
Proof.
  intros E sock s Hs. exists s. rewrite E.
  rewrite lookup_app_l by (eapply lookup_lt_Some; eauto). auto.
Qed.

Lemma sockets_kept_close st sock : sockets_kept st (close_socket sock st).
Proof.
  intros h s Hs. cbn [close_socket set_sockets sockets].
  destruct (decide (sock = h)) as [->|Hne].
  - rewrite list_lookup_alter_eq, Hs. cbn. eauto.
  - rewrite list_lookup_alter_ne by exact Hne. eauto.
Qed.

Lemma sockets_kept_length st st' :
  sockets_kept st st' -> (length (sockets st) <= length (sockets st'))%nat.
Proof.
  intros H. destruct (sockets st) as [|s l] eqn:E using rev_ind; [cbn; lia|].
  clear IHl. destruct (H (length l) s) as (s' & Hs' & _).
  { rewrite E. apply list_lookup_middle. reflexivity. }
  apply lookup_lt_Some in Hs'. rewrite length_app. cbn. lia.
Qed.

Lemma close_socket_closed st sock :
  (sock < length (sockets st))%nat -> closed_in (close_socket sock st) sock.
Proof.
  intros Hlt. apply lookup_lt_is_Some_2 in Hlt as [s Hs].
  unfold closed_in. cbn [close_socket set_sockets sockets].
  rewrite list_lookup_alter_eq, Hs. cbn. eauto.
Qed.

Lemma closed_in_kept st st' sock :
  sockets_kept st st' -> closed_in st sock -> closed_in st' sock.
Proof.
  intros Hk (s & Hs & Hc). destruct (Hk sock s Hs) as (s' & Hs' & _ & Hc').
  exists s'. auto.
Qed.

(** The map: what [set] and [get] do to the entries. *)
Lemma get_In {V} (m : JsMap.t V) k v : JsMap.get m k = Some v -> In (k, v) m.
Proof.
  induction m as [|[k0 v0] m IH]; cbn [JsMap.get]; [discriminate|].
  destruct (jsstring_eqb k0 k) eqn:E.
  - apply jsstring_eqb_true in E. intros [= <-]. subst. now left.
  - intros H. right. auto.
Qed.

Lemma In_get {V} (m : JsMap.t V) k v :
  NoDup (JsMap.keys m) -> In (k, v) m -> JsMap.get m k = Some v.
Proof.
  induction m as [|[k0 v0] m IH]; cbn [JsMap.get JsMap.keys map fst];
    intros Hnd Hin; [destruct Hin|].
  apply NoDup_cons in Hnd as [Hk0 Hnd]. rewrite list_elem_of_In in Hk0.
  destruct Hin as [[= -> ->]|Hin].
  - now rewrite (proj2 (jsstring_eqb_true k k) eq_refl).
  - destruct (jsstring_eqb k0 k) eqn:E.
    + apply jsstring_eqb_true in E. subst k0. exfalso. apply Hk0.
      change (In k (map fst m)). apply in_map_iff. now exists (k, v).
    + now apply IH.
Qed.

Lemma In_set {V} (m : JsMap.t V) k v k' v' :
  In (k', v') (JsMap.set m k v) -> (k' = k /\ v' = v) \/ In (k', v') m.
Proof.
  induction m as [|[k0 v0] m IH]; cbn [JsMap.set].
  - intros [[= <- <-]|[]]. auto.
  - destruct (jsstring_eqb k0 k) eqn:E.
    + apply jsstring_eqb_true in E. subst k0.
      intros [[= <- <-]|Hin]; [auto|]. right. now right.
    + intros [Heq|Hin]; [right; now left|].
      destruct (IH Hin) as [H|H]; [auto|]. right. now right.
Qed.

End FrameFacts.

Section TurnFacts.
Context {R : Remote}.

Lemma extractMetadata_session cdp w :
  ws (snd (fst (extractMetadata cdp w))) = ws cdp /\
  contexts (snd (fst (extractMetadata cdp w))) = contexts cdp.
Proof.
  unfold extractMetadata.
  destruct (truthy_id (rootContextId cdp)) as [cached|].
  - destruct (evaluate_metadata w (ws cdp) cached) as [[v| |] w1].
    + auto.
    + destruct (scan_contexts _ _ w1); auto.
    + destruct (scan_contexts _ _ w1); auto.
  - destruct (scan_contexts _ _ w); auto.
Qed.

Lemma remember_context_session cdp meta :
  ws (remember_context cdp meta) = ws cdp /\
  contexts (remember_context cdp meta) = contexts cdp.
Proof.
  unfold remember_context. destruct (truthy_id _); auto.
Qed.

Lemma connect_fresh_strong c acc st :
  let '(verdict, acc', st') := connect_fresh c (ident_of c) acc st in
  heap_keeps kept_by_discover st st' /\
  sockets_kept st st' /\
  (forall ref c',
     (length (heap st) <= ref)%nat -> heap st' !! ref = Some c' ->
     snapshot c' = None /\ snapshotHash c' = None /\ cascade_id c' = ident_of c) /\
  (forall sock s',
     (length (sockets st) <= sock)%nat -> sockets st' !! sock = Some s' ->
     sock_url s' = webSocketDebuggerUrl (target c)) /\
  (length (sockets st') <= S (length (sockets st)))%nat /\
  (if identified verdict
   then exists ref c',
          acc' = JsMap.set acc (ident_of c) ref /\
          heap st' !! ref = Some c' /\ cascade_id c' = ident_of c
   else acc' = acc) /\
  (verdict = Discarded -> closed_in st' (length (sockets st))).
Proof.
  unfold connect_fresh.
  destruct (connectCDP (world st) _) as [dial w1].
  destruct dial as [| |announced].
  - (* refused *)
    cbn [identified set_world heap sockets].
    split; [now apply heap_keeps_same; [apply kept_by_discover_refl|]|].
    split; [now apply sockets_kept_same|].
    split; [intros ref c' Hge Hc'; apply lookup_lt_Some in Hc'; lia|].
    split; [intros sock s' Hge Hs'; apply lookup_lt_Some in Hs'; lia|].
    split; [lia|]. split; [reflexivity|discriminate].
  - (* the socket opened, Runtime.enable was rejected *)
    cbn [identified set_world open_socket set_sockets heap sockets].
    split; [now apply heap_keeps_same; [apply kept_by_discover_refl|]|].
    split; [eapply sockets_kept_app; reflexivity|].
    split; [intros ref c' Hge Hc'; apply lookup_lt_Some in Hc'; lia|].
    split.
    { intros sock s' Hge Hs'. apply lookup_snoc_Some in Hs' as [[Hlt _]|[_ <-]].
      - lia.
      - reflexivity. }
    split; [rewrite length_app; cbn; lia|]. split; [reflexivity|discriminate].
  - match goal with
    | |- context [extractMetadata ?a ?b] =>
        destruct (extractMetadata a b) as [[meta cdp1] w2]
    end.
    destruct meta as [meta|].
    + match goal with
      | |- context [captureCSS ?a ?b ?c] => destruct (captureCSS a b c) as [sheet w3]
      end.
      cbn [identified set_world set_heap open_socket set_sockets heap sockets].
      split; [eapply heap_keeps_app; [apply kept_by_discover_refl|reflexivity]|].
      split; [eapply sockets_kept_app; reflexivity|].
      split.
      { intros ref c' Hge Hc'. apply lookup_snoc_Some in Hc' as [[Hlt _]|[_ <-]].
        - lia.
        - auto. }
      split.
      { intros sock s' Hge Hs'. apply lookup_snoc_Some in Hs' as [[Hlt _]|[_ <-]].
        - lia.
        - reflexivity. }
      split; [rewrite length_app; cbn; lia|].
      split; [|discriminate].
      eexists _, _. split; [reflexivity|]. split.
      * apply list_lookup_middle. reflexivity.
      * reflexivity.
    + cbn [identified].
      match goal with
      | |- context [close_socket ?h ?s] => set (opened := s)
      end.
      assert (Hso : sockets opened
                    = sockets st ++ [{| sock_url := webSocketDebuggerUrl (target c);
                                        sock_closed := false |}]) by reflexivity.
      assert (Hho : heap (close_socket (length (sockets st)) opened) = heap st)
        by reflexivity.
      split; [now apply heap_keeps_same; [apply kept_by_discover_refl|]|].
      split.
      { eapply sockets_kept_trans; [|apply sockets_kept_close].
        eapply sockets_kept_app; reflexivity. }
      split; [intros ref c' Hge Hc'; rewrite Hho in Hc';
              apply lookup_lt_Some in Hc'; lia|].
      split.
      { intros sock s' Hge Hs'.
        cbn [close_socket set_sockets sockets] in Hs'. rewrite Hso in Hs'.
        destruct (decide (length (sockets st) = sock)) as [<-|Hne].
        - rewrite list_lookup_alter_eq, list_lookup_middle in Hs' by reflexivity.
          cbn in Hs'. now injection Hs' as <-.
        - rewrite list_lookup_alter_ne in Hs' by exact Hne.
          apply lookup_snoc_Some in Hs' as [[Hlt _]|[Hl _]]; lia. }
      split.
      { cbn [close_socket set_sockets sockets]. rewrite length_alter, Hso, length_app.
        cbn. lia. }
      split; [reflexivity|]. intros _.
      apply close_socket_closed. rewrite Hso, length_app. cbn. lia.
Qed.

(** A fresh connection made from a state [s] that differs from [st] by
    kept changes of existing objects only. *)
Lemma connect_fresh_from c acc st s :
  heap_keeps kept_by_discover st s ->
  length (heap s) = length (heap st) ->
  sockets s = sockets st ->
  turn_keeps c acc st (connect_fresh c (ident_of c) acc s).
Proof.
  intros Hh Hl Hs. pose proof (connect_fresh_strong c acc s) as H.
  unfold turn_keeps.
  destruct (connect_fresh c (ident_of c) acc s) as [[v acc'] st'].
  rewrite Hl, Hs in H. destruct H as (H1 & H2 & H3 & H4 & H5 & H6 & H7).
  split; [exact (heap_keeps_trans _ kept_by_discover_trans st s st' Hh H1)|].
  split; [eapply sockets_kept_trans; [|exact H2]; now apply sockets_kept_same|].
  split; [exact H3|]. split; [exact H4|]. split; [exact H5|]. split; [|exact H7].
  destruct (identified v); [|exact H6].
  destruct H6 as (ref & c' & Hacc & Hc' & Hid). eauto 6.
Qed.

Lemma reconcile_candidate_keeps c acc st :
  turn_keeps c acc st (reconcile_candidate c acc st).
Proof.
  assert (Hfresh : turn_keeps c acc st (connect_fresh c (ident_of c) acc st)).
  { apply connect_fresh_from; [|reflexivity..].
    apply heap_keeps_same; [apply kept_by_discover_refl|reflexivity]. }
  unfold reconcile_candidate. cbv zeta.
  destruct (JsMap.get (cascades st) (ident_of c)) as [ref|] eqn:Eg; [|exact Hfresh].
  destruct (heap st !! ref) as [existing|] eqn:Eh; [|exact Hfresh].
  destruct (readyState_open st (ws (cdp existing))); [|exact Hfresh].
  pose proof (extractMetadata_session (cdp existing) (world st)) as [Hws Hctx].
  destruct (extractMetadata (cdp existing) (world st)) as [[meta cdp1] w1].
  cbn [fst snd] in Hws, Hctx.
  destruct meta as [meta|].
  - unfold turn_keeps. cbn [identified set_heap set_world heap sockets].
    pose proof (remember_context_session cdp1 meta) as [Hws' Hctx'].
    split.
    { eapply heap_keeps_insert; [apply kept_by_discover_refl|exact Eh| |reflexivity].
      unfold kept_by_discover. cbn. repeat split; congruence. }
    split; [now apply sockets_kept_same|].
    split.
    { intros r c' Hge Hc'. apply lookup_lt_Some in Hc'.
      rewrite length_insert in Hc'. lia. }
    split; [intros sock s' Hge Hs'; apply lookup_lt_Some in Hs'; lia|].
    split; [lia|]. split; [|discriminate].
    eexists ref, _. split; [reflexivity|]. split.
    + apply list_lookup_insert_eq. eapply lookup_lt_Some; eauto.
    + right. exists existing. auto.
  - apply connect_fresh_from.
    + eapply heap_keeps_insert; [apply kept_by_discover_refl|exact Eh| |reflexivity].
      unfold kept_by_discover. cbn. repeat split; congruence.
    + cbn. apply length_insert.
    + reflexivity.
Qed.

End TurnFacts.

Section LoopFacts.
Context {R : Remote}.

Lemma map_wf_kept (m : JsMap.t nat) st st' :
  heap_keeps kept_by_discover st st' -> map_wf m st -> map_wf m st'.
Proof.
  intros Hk [Hnd Hm]. split; [exact Hnd|].
  intros ident ref Hin. destruct (Hm ident ref Hin) as (c & Hc & Hid).
  destruct (Hk ref c Hc) as (c' & Hc' & Hkept).
  exists c'. split; [exact Hc'|]. destruct Hkept as [H _]. congruence.
Qed.

Lemma reconcile_keeps allTargets acc st :
  let '(trace, acc', st') := reconcile allTargets acc st in
  heap_keeps kept_by_discover st st' /\
  sockets_kept st st' /\
  (forall ref c',
     (length (heap st) <= ref)%nat -> heap st' !! ref = Some c' ->
     snapshot c' = None /\ snapshotHash c' = None) /\
  (forall sock s',
     (length (sockets st) <= sock)%nat -> sockets st' !! sock = Some s' ->
     exists c, In c allTargets /\ sock_url s' = webSocketDebuggerUrl (target c)) /\
  (length (sockets st') <= length (sockets st) + length allTargets)%nat /\
  (map_wf (cascades st) st -> map_wf acc st -> map_wf acc' st').
Proof.
  revert acc st. induction allTargets as [|c rest IH]; intros acc st;
    cbn [reconcile].
  - split; [apply heap_keeps_same; [apply kept_by_discover_refl|reflexivity]|].
    split; [now apply sockets_kept_same|].
    split; [intros ref c' Hge Hc'; apply lookup_lt_Some in Hc'; lia|].
    split; [intros sock s' Hge Hs'; apply lookup_lt_Some in Hs'; lia|].
    split; [lia|auto].
  - pose proof (reconcile_candidate_keeps c acc st) as Hturn.
    pose proof (reconcile_candidate_ok c acc st) as Hok.
    destruct (reconcile_candidate c acc st) as [[verdict acc1] st1].
    destruct Hok as (Hcasc & _ & _).
    unfold turn_keeps in Hturn.
    destruct Hturn as (Hh1 & Hs1 & Hnew1 & Hsock1 & Hlen1 & Hacc1 & _).
    specialize (IH acc1 st1).
    destruct (reconcile rest acc1 st1) as [[trace acc2] st2].
    destruct IH as (Hh2 & Hs2 & Hnew2 & Hsock2 & Hlen2 & Hwf2).
    split; [exact (heap_keeps_trans _ kept_by_discover_trans st st1 st2 Hh1 Hh2)|].
    split; [exact (sockets_kept_trans st st1 st2 Hs1 Hs2)|].
    split.
    { intros ref c' Hge Hc'.
      destruct (le_lt_dec (length (heap st1)) ref) as [Hge1|Hlt1]; [eauto|].
      apply lookup_lt_is_Some_2 in Hlt1 as [c1 Hc1].
      destruct (Hnew1 ref c1 Hge Hc1) as (Hsn & Hsh & _).
      destruct (Hh2 ref c1 Hc1) as (c2 & Hc2 & Hkept).
      assert (c2 = c') as -> by congruence.
      destruct Hkept as (_ & _ & _ & _ & Hk1 & _ & Hk2). split; congruence. }
    split.
    { intros sock s' Hge Hs'.
      destruct (le_lt_dec (length (sockets st1)) sock) as [Hge1|Hlt1].
      - destruct (Hsock2 sock s' Hge1 Hs') as (c0 & Hin & Hu).
        exists c0. split; [now right|exact Hu].
      - apply lookup_lt_is_Some_2 in Hlt1 as [s1 Hs1'].
        pose proof (Hsock1 sock s1 Hge Hs1') as Hu.
        destruct (Hs2 sock s1 Hs1') as (s2 & Hs2' & Hu2 & _).
        assert (s2 = s') as -> by congruence.
        exists c. split; [now left|congruence]. }
    split; [cbn [length]; lia|].
    intros Hreg Hacc. apply Hwf2.
    + rewrite Hcasc. now apply (map_wf_kept _ st st1).
    + destruct (identified verdict).
      * destruct Hacc1 as (ref & c' & -> & Hc' & Hid).
        destruct Hacc as [Hnd Hm]. split; [now apply keys_set_NoDup|].
        intros k r Hin. apply In_set in Hin as [[-> ->]|Hin].
        -- exists c'. split; [exact Hc'|].
           destruct Hid as [Hid|(existing & Hg & He & Hid)]; [exact Hid|].
           destruct Hreg as [_ Hreg].
           destruct (Hreg _ _ (get_In _ _ _ Hg)) as (c0 & Hc0 & Hid0).
           congruence.
        -- destruct (Hm k r Hin) as (c0 & Hc0 & Hid0).
           destruct (Hh1 r c0 Hc0) as (c1 & Hc1 & Hk & _).
           exists c1. split; [exact Hc1|congruence].
      * subst acc1. now apply (map_wf_kept _ st st1).
Qed.

Lemma cleanup_keeps old newCascades st :
  sockets_kept st (cleanup old newCascades st) /\
  length (sockets (cleanup old newCascades st)) = length (sockets st).
Proof.
  revert st. induction old as [|[ident ref] old IH]; intros st; cbn [cleanup].
  - split; [now apply sockets_kept_same|reflexivity].
  - match goal with |- context [cleanup old newCascades ?s] => set (st1 := s) end.
    assert (H1 : sockets_kept st st1 /\ length (sockets st1) = length (sockets st)).
    { subst st1. destruct (JsMap.has newCascades ident).
      - split; [now apply sockets_kept_same|reflexivity].
      - destruct (heap st !! ref) as [c|].
        + split; [apply sockets_kept_close|].
          cbn [close_socket set_sockets sockets]. apply length_alter.
        + split; [now apply sockets_kept_same|reflexivity]. }
    destruct H1 as [H1 H1']. destruct (IH st1) as [H2 H2'].
    split; [eapply sockets_kept_trans; eauto|congruence].
Qed.

Lemma cleanup_closes old newCascades st ident ref c :
  In (ident, ref) old ->
  JsMap.has newCascades ident = false ->
  heap st !! ref = Some c ->
  (ws (cdp c) < length (sockets st))%nat ->
  closed_in (cleanup old newCascades st) (ws (cdp c)).
Proof.
  revert st. induction old as [|[k r] old IH]; intros st Hin Hhas Hc Hlt;
    [destruct Hin|].
  cbn [cleanup].
  match goal with |- context [cleanup old newCascades ?s] => set (st1 := s) end.
  assert (Hheap : heap st1 = heap st).
  { subst st1. destruct (JsMap.has newCascades k); [reflexivity|].
    destruct (heap st !! r); reflexivity. }
  assert (Hlen : length (sockets st1) = length (sockets st)).
  { subst st1. destruct (JsMap.has newCascades k); [reflexivity|].
    destruct (heap st !! r); [|reflexivity].
    cbn [close_socket set_sockets sockets]. apply length_alter. }
  destruct Hin as [[= -> ->]|Hin].
  - assert (Hclosed : closed_in st1 (ws (cdp c))).
    { subst st1. rewrite Hhas, Hc. now apply close_socket_closed. }
    eapply closed_in_kept; [|exact Hclosed]. apply cleanup_keeps.
  - apply IH; [exact Hin|exact Hhas|now rewrite Hheap|now rewrite Hlen].
Qed.

Lemma find_targets_workbench ports w :
  Forall (fun c => is_workbench (target c) = true /\ In (port c) ports)
    (fst (find_targets ports w)).
Proof.
  revert w. induction ports as [|p ports IH]; intros w; cbn [find_targets].
  - constructor.
  - destruct (getJson w p) as [list w1].
    specialize (IH w1). destruct (find_targets ports w1) as [more w2].
    cbn [fst] in *. apply Forall_app. split.
    + apply Forall_forall. intros c Hc.
      apply list_elem_of_In, in_map_iff in Hc as (t & <- & Ht).
      apply list_elem_of_In, list_elem_of_filter in Ht as [Ht _].
      cbn [target port]. split; [exact Ht|now left].
    + eapply Forall_impl; [exact IH|]. cbn. intros c [H1 H2]. split; [exact H1|now right].
Qed.

End LoopFacts.

Section PassFacts.
Context {R : Remote}.

(** A pass of [discover], with everything the turns and step 3 were shown
    to keep. *)
Lemma discover_keeps st :
  let allTargets := fst (find_targets PORTS (world st)) in
  let st' := discover st in
  heap_keeps kept_by_discover st st' /\
  sockets_kept st st' /\
  (forall ref c',
     (length (heap st) <= ref)%nat -> heap st' !! ref = Some c' ->
     snapshot c' = None /\ snapshotHash c' = None) /\
  (forall sock s',
     (length (sockets st) <= sock)%nat -> sockets st' !! sock = Some s' ->
     exists c, In c allTargets /\ sock_url s' = webSocketDebuggerUrl (target c)) /\
  (length (sockets st') <= length (sockets st) + length allTargets)%nat /\
  (registry_wf st -> registry_wf st') /\
  (forall ident ref c,
     In (ident, ref) (cascades st) ->
     ~ In ident (JsMap.keys (cascades st')) ->
     heap st !! ref = Some c ->
     (ws (cdp c) < length (sockets st))%nat ->
     closed_in st' (ws (cdp c))).
Proof.
  cbv zeta. unfold discover, discover_traced.
  destruct (find_targets PORTS (world st)) as [allTargets w1]. cbn [fst].
  pose proof (reconcile_keeps allTargets [] (set_world st w1)) as Hrec.
  pose proof (reconcile_ok allTargets [] (set_world st w1)) as Hok.
  destruct (reconcile allTargets [] (set_world st w1)) as [[trace acc] st1].
  destruct Hok as (_ & Hcasc & _).
  destruct Hrec as (Hh & Hs & Hnew & Hsock & Hlen & Hwf).
  cbn [set_world heap sockets cascades] in Hh, Hs, Hnew, Hsock, Hlen, Hwf, Hcasc.
  destruct (cleanup_keeps (cascades st1) acc st1) as [Hck Hcl].
  destruct (cleanup_ok (cascades st1) acc st1) as (_ & _ & Hch).
  pose proof (cleanup_closes (cascades st1) acc st1) as Hcc.
  set (st2 := cleanup (cascades st1) acc st1) in *. clearbody st2.
  cbn [snd].
  match goal with
  | |- context [if ?b then broadcastCascadeList ?x else ?y] =>
      set (st3 := if b then broadcastCascadeList x else y)
  end.
  assert (Hheap : heap st3 = heap st1).
  { subst st3. destruct (negb _); cbn; exact Hch. }
  assert (Hsocks : sockets st3 = sockets st2).
  { subst st3. destruct (negb _); reflexivity. }
  assert (Hcascs : cascades st3 = acc).
  { subst st3. destruct (negb _); reflexivity. }
  clearbody st3.
  assert (Hh3 : heap_keeps kept_by_discover st st3).
  { intros ref c Hc. rewrite Hheap. exact (Hh ref c Hc). }
  assert (Hs3 : sockets_kept st st3).
  { intros sock s Hsk. rewrite Hsocks.
    exact (sockets_kept_trans _ _ _ Hs Hck sock s Hsk). }
  split; [exact Hh3|]. split; [exact Hs3|].
  split; [intros ref c' Hge Hc'; rewrite Hheap in Hc'; eauto|].
  split.
  { intros sock s' Hge Hs'. rewrite Hsocks in Hs'.
    assert (Hlt : (sock < length (sockets st1))%nat).
    { apply lookup_lt_Some in Hs'. lia. }
    apply lookup_lt_is_Some_2 in Hlt as [s1 Hs1].
    destruct (Hsock sock s1 Hge Hs1) as (c & Hin & Hu).
    destruct (Hck sock s1 Hs1) as (s2 & Hs2 & Hu2 & _).
    exists c. split; [exact Hin|congruence]. }
  split; [rewrite Hsocks; lia|].
  split.
  { intros Hreg. unfold registry_wf. rewrite Hcascs.
    destruct (Hwf Hreg) as [Hnd Hm].
    { split; [apply NoDup_nil_2|intros k r []]. }
    split; [exact Hnd|]. intros k r Hin. rewrite Hheap. eauto. }
  intros ident ref c Hin Hout Hc Hlt.
  rewrite Hcascs in Hout.
  destruct (Hh ref c Hc) as (c1 & Hc1 & Hkept).
  destruct Hkept as (_ & Hws & _).
  assert (Hclosed : closed_in st2 (ws (cdp c1))).
  { apply (Hcc ident ref c1).
    - now rewrite Hcasc.
    - apply not_true_iff_false. rewrite has_keys. exact Hout.
    - exact Hc1.
    - pose proof (sockets_kept_length _ _ Hs) as Hle.
      cbn [set_world sockets] in Hle. rewrite Hws. lia. }
  rewrite Hws in Hclosed. destruct Hclosed as (s & Hsk & Hcl').
  exists s. rewrite Hsocks. auto.
Qed.

End PassFacts.

(** X11. A discovery pass keeps the registry well formed: no key is held
    twice, and every key leads to an entry whose [id] is that key. *)
Theorem discover_keeps_registry_wf `{R : Remote} (st : State) :
  registry_wf st -> registry_wf (discover st).
Proof. intros H. now apply (discover_keeps st). Qed.

(** X12. A discovery pass never loses what an entry object holds: its id,
    socket, context list, window title, stylesheet, last snapshot and
    snapshot hash are the same afterwards (a refresh only renews the other
    metadata and the cached context); and the objects a pass creates start
    without snapshot and without hash. *)
Theorem discover_keeps_entries `{R : Remote} (st : State) :
  heap_keeps kept_by_discover st (discover st) /\
  forall ref c',
    (length (heap st) <= ref)%nat -> heap (discover st) !! ref = Some c' ->
    snapshot c' = None /\ snapshotHash c' = None.
Proof. split; apply (discover_keeps st). Qed.

(** X13. A discovery pass never reopens or re-targets a socket: every
    socket that existed is still on its URL, and closed if it was closed.
    It opens at most one socket per candidate, each on the transport URL of
    a candidate of this pass, which is a workbench window listed by one of
    the configured ports. *)
Theorem discover_sockets `{R : Remote} (st : State) :
  sockets_kept st (discover st) /\
  (length (sockets (discover st))
   <= length (sockets st) + length (fst (find_targets PORTS (world st))))%nat /\
  forall sock s',
    (length (sockets st) <= sock)%nat -> sockets (discover st) !! sock = Some s' ->
    exists c, In c (fst (find_targets PORTS (world st))) /\
              sock_url s' = webSocketDebuggerUrl (target c) /\
              is_workbench (target c) = true /\ In (port c) PORTS.
Proof.
  destruct (discover_keeps st) as (_ & Hs & _ & Hsock & Hlen & _).
  split; [exact Hs|]. split; [exact Hlen|].
  intros sock s' Hge Hs'. destruct (Hsock sock s' Hge Hs') as (c & Hin & Hu).
  exists c. split; [exact Hin|]. split; [exact Hu|].
  pose proof (find_targets_workbench PORTS (world st)) as Hw.
  rewrite Forall_forall in Hw. apply Hw. now apply list_elem_of_In.
Qed.

(** X14. An entry that a discovery pass drops has its transport closed:
    when a key of the old registry is not a key of the new one, the socket
    of the entry it led to is closed after the pass. *)
Theorem discover_closes_dropped `{R : Remote}
    (st : State) (ident : jsstring) (ref : nat) (c : Cascade) :
  In (ident, ref) (cascades st) ->
  heap st !! ref = Some c ->
  (ws (cdp c) < length (sockets st))%nat ->
  ~ In ident (JsMap.keys (cascades (discover st))) ->
  closed_in (discover st) (ws (cdp c)) /\
  readyState_open (discover st) (ws (cdp c)) = false.
Proof.
  intros Hin Hc Hlt Hout.
  destruct (discover_keeps st) as (_ & _ & _ & _ & _ & _ & Hclosed).
  pose proof (Hclosed ident ref c Hin Hout Hc Hlt) as Hcl.
  split; [exact Hcl|].
  destruct Hcl as (s & Hs & Hsc). unfold readyState_open. now rewrite Hs, Hsc.
Qed.

Lemma discover_keeps_registry_wf_witness : registry_wf (first_pass steady_world).
Proof.
  apply (discover_keeps_registry_wf (R := Scripted.remote)
           (initial (R := Scripted.remote) steady_world)).
  split; [apply NoDup_nil_2|intros k r []].
Defined.

Lemma discover_keeps_entries_witness :
  exists c',
    heap (discover (R := Scripted.remote) (polls 1 refresh_world)) !! 0%nat = Some c' /\
    snapshot c' = Some (snap_of html_hello None) /\
    snapshotHash c' = Some (hashString html_hello).
Proof.
  assert (H : heap (polls 1 refresh_world) !! 0%nat
              = Some (store_snapshot entry_a (snap_of html_hello None)
                        (hashString html_hello)))
    by (vm_compute; reflexivity).
  destruct (proj1 (discover_keeps_entries (R := Scripted.remote) (polls 1 refresh_world))
              0%nat _ H) as (c' & Hc' & Hk).
  exists c'. split; [exact Hc'|].
  destruct Hk as (_ & _ & _ & _ & Hs & _ & Hh). split; [exact Hs|exact Hh].
Defined.

Lemma discover_sockets_witness :
  exists c,
    In c (fst (find_targets (R := Scripted.remote) PORTS (world (first_pass swap_world)))) /\
    url_b = webSocketDebuggerUrl (target c) /\
    is_workbench (target c) = true /\ In (port c) PORTS.
Proof.
  refine (proj2 (proj2 (discover_sockets (R := Scripted.remote) (first_pass swap_world)))
            1%nat {| sock_url := url_b; sock_closed := false |} _ _).
  - vm_compute. lia.
  - vm_compute. reflexivity.
Defined.

Lemma discover_closes_dropped_witness :
  closed_in (second_pass swap_world) 0 /\
  readyState_open (second_pass swap_world) 0 = false.
Proof.
  refine (discover_closes_dropped (R := Scripted.remote) (first_pass swap_world)
            (hashString url_a) 0 entry_a _ _ _ _).
  - vm_compute. left. reflexivity.
  - vm_compute. reflexivity.
  - vm_compute. lia.
  - assert (E : JsMap.keys (cascades (discover (R := Scripted.remote)
                                        (first_pass swap_world)))
                = [hashString url_b]) by (vm_compute; reflexivity).
    rewrite E. intros [H|[]].
    assert (Hne : hashString url_b <> hashString url_a)
      by (vm_compute; intros X; discriminate X).
    exact (Hne H).
Defined.

(** ** What a polling pass keeps *)

Section PollingFrame.
Context {R : Remote}.

Lemma store_snapshot_consistent c snap :
  snapshot_consistent (store_snapshot c snap (hashString (html snap))).
Proof. reflexivity. Qed.

Lemma set_chatTitle_consistent c t :
  snapshot_consistent c -> snapshot_consistent (set_chatTitle c t).
Proof. auto. Qed.

(** The shape of what a poll sends: at most a list followed by one
    snapshot event, the event carrying the polled entry's id. *)
Local Abbreviation poll_messages c extra :=
  (extra = [] \/
   (exists items, extra = [cascade_list items; snapshot_update (cascade_id c)]) \/
   extra = [snapshot_update (cascade_id c)]).

Lemma apply_capture_keeps ref c snap st :
  heap st !! ref = Some c ->
  let st' := apply_capture ref c snap st in
  cascades st' = cascades st /\
  sockets st' = sockets st /\
  world st' = world st /\
  (exists c', heap st' = <[ref := c']> (heap st) /\ kept_by_polling c c' /\
              (snapshot_consistent c -> snapshot_consistent c')) /\
  (exists extra, outbox st' = outbox st ++ extra /\ poll_messages c extra).
Proof.
  intros Hc. cbv zeta.
  assert (Hid : heap st = <[ref := c]> (heap st)).
  { symmetry. now apply list_insert_id. }
  destruct snap as [snap|].
  2:{ cbn [apply_capture]. repeat split; auto.
      - exists c. split; [exact Hid|]. split; [apply kept_by_polling_refl|auto].
      - exists []. rewrite app_nil_r. auto. }
  destruct (decide (snapshotHash c = Some (hashString (html snap)))) as [Hh|Hh].
  - rewrite apply_capture_same by exact Hh. repeat split; auto.
    + exists c. split; [exact Hid|]. split; [apply kept_by_polling_refl|auto].
    + exists []. rewrite app_nil_r. auto.
  - rewrite apply_capture_changed by exact Hh. cbv zeta.
    destruct (title_changed snap _) as [t|];
      cbn [broadcast broadcastCascadeList set_heap heap outbox cascades sockets world].
    + repeat split; auto.
      * eexists. split; [reflexivity|]. split.
        -- unfold kept_by_polling. cbn. tauto.
        -- intros _. apply set_chatTitle_consistent, store_snapshot_consistent.
      * eexists. rewrite <- app_assoc. split; [reflexivity|]. right. left. eauto.
    + repeat split; auto.
      * eexists. split; [reflexivity|]. split.
        -- unfold kept_by_polling. cbn. tauto.
        -- intros _. apply store_snapshot_consistent.
      * eexists. split; [reflexivity|]. auto.
Qed.

(** The relation between the states before and after some polls. *)
Local Abbreviation polled st st' :=
  (cascades st' = cascades st /\
   sockets st' = sockets st /\
   heap_keeps kept_by_polling st st' /\
   length (heap st') = length (heap st) /\
   (Forall snapshot_consistent (heap st) -> Forall snapshot_consistent (heap st')) /\
   (exists extra,
      outbox st' = outbox st ++ extra /\
      forall k, In (snapshot_update k) extra ->
                exists ref c, heap st !! ref = Some c /\ cascade_id c = k)).

Lemma poll_cascade_keeps ref st : polled st (poll_cascade ref st).
Proof.
  unfold poll_cascade. destruct (heap st !! ref) as [c|] eqn:Hc.
  2:{ repeat split; auto.
      - apply heap_keeps_same; [apply kept_by_polling_refl|reflexivity].
      - exists []. rewrite app_nil_r. split; [reflexivity|intros k []]. }
  destruct (captureHTML (cdp c) (metadata c) (world st)) as [snap w1].
  assert (Hc1 : heap (set_world st w1) !! ref = Some c) by exact Hc.
  pose proof (apply_capture_keeps ref c snap (set_world st w1) Hc1) as H.
  cbv zeta in H.
  destruct H as (H1 & H2 & _ & (c' & Hheap & Hk & Hcons) & (extra & Hout & Hshape)).
  cbn [set_world cascades sockets heap outbox] in *.
  split; [exact H1|]. split; [exact H2|].
  split.
  { eapply heap_keeps_insert; [apply kept_by_polling_refl|exact Hc|exact Hk|exact Hheap]. }
  split; [rewrite Hheap; apply length_insert|].
  split.
  { intros Hall. rewrite Hheap. apply Forall_insert; [exact Hall|].
    apply Hcons. rewrite Forall_lookup in Hall. eauto. }
  exists extra. split; [exact Hout|].
  intros k Hin. exists ref, c. split; [exact Hc|].
  destruct Hshape as [->|[[items ->]| ->]].
  - destruct Hin.
  - destruct Hin as [H|[H|[]]]; [discriminate H|now injection H].
  - destruct Hin as [H|[]]. now injection H.
Qed.

Lemma polled_trans st1 st2 st3 : polled st1 st2 -> polled st2 st3 -> polled st1 st3.
Proof.
  intros (Ha1 & Ha2 & Ha3 & Ha4 & Ha5 & (e1 & Ho1 & He1))
         (Hb1 & Hb2 & Hb3 & Hb4 & Hb5 & (e2 & Ho2 & He2)).
  split; [congruence|]. split; [congruence|].
  split; [exact (heap_keeps_trans _ kept_by_polling_trans _ _ _ Ha3 Hb3)|].
  split; [congruence|]. split; [auto|].
  exists (e1 ++ e2). split; [rewrite Ho2, Ho1; apply eq_sym, app_assoc|].
  intros k Hin. apply in_app_or in Hin as [Hin|Hin]; [eauto|].
  destruct (He2 k Hin) as (ref & c2 & Hc2 & Hid).
  assert (Hlt : (ref < length (heap st1))%nat).
  { apply lookup_lt_Some in Hc2. lia. }
  apply lookup_lt_is_Some_2 in Hlt as [c1 Hc1].
  destruct (Ha3 ref c1 Hc1) as (c2' & Hc2' & Hk & _).
  exists ref, c1. split; [exact Hc1|congruence].
Qed.

Lemma polls_keep refs st :
  polled st (fold_left (fun st ref => poll_cascade ref st) refs st).
Proof.
  revert st. induction refs as [|ref refs IH]; intros st; cbn [fold_left].
  - repeat split; auto.
    + apply heap_keeps_same; [apply kept_by_polling_refl|reflexivity].
    + exists []. rewrite app_nil_r. split; [reflexivity|intros k []].
  - eapply polled_trans; [apply poll_cascade_keeps|apply IH].
Qed.

End PollingFrame.

(** X15. A polling pass changes neither the registry map nor any socket,
    and of an entry it keeps the id, the session, the stylesheet and all
    metadata but the chat title; it keeps the registry well formed; and
    every snapshot event it sends carries the id of an entry object, which
    under a well-formed registry is the id the entry had before. *)
Theorem updateSnapshots_keeps `{R : Remote} (st : State) :
  let st' := updateSnapshots st in
  cascades st' = cascades st /\
  sockets st' = sockets st /\
  heap_keeps kept_by_polling st st' /\
  (registry_wf st -> registry_wf st') /\
  exists extra,
    outbox st' = outbox st ++ extra /\
    forall k, In (snapshot_update k) extra ->
              exists ref c, heap st !! ref = Some c /\ cascade_id c = k.
Proof.
  cbv zeta. unfold updateSnapshots.
  destruct (polls_keep (JsMap.values (cascades st)) st)
    as (H1 & H2 & H3 & _ & _ & H6).
  split; [exact H1|]. split; [exact H2|]. split; [exact H3|]. split; [|exact H6].
  intros [Hnd Hm]. unfold registry_wf, map_wf. rewrite H1.
  split; [exact Hnd|]. intros k r Hin.
  destruct (Hm k r Hin) as (c & Hc & Hid).
  destruct (H3 r c Hc) as (c' & Hc' & Hk & _).
  exists c'. split; [exact Hc'|congruence].
Qed.

Lemma updateSnapshots_keeps_witness : registry_wf (polls 1 polling_world).
Proof.
  refine (proj1 (proj2 (proj2 (proj2
            (updateSnapshots_keeps (R := Scripted.remote) (polls 0 polling_world)))))
            _).
  apply (discover_keeps (R := Scripted.remote)
           (initial (R := Scripted.remote) polling_world)).
  split; [apply NoDup_nil_2|intros k r []].
Defined.

(** X16. The stored hash always belongs to the stored snapshot: if in every
    entry object the hash is the hash of the stored snapshot's HTML (both
    being null before the first capture), the same holds after a discovery
    pass and after a polling pass. *)
Theorem snapshot_hash_stays_consistent `{R : Remote} (st : State) :
  Forall snapshot_consistent (heap st) ->
  Forall snapshot_consistent (heap (discover st)) /\
  Forall snapshot_consistent (heap (updateSnapshots st)).
Proof.
  intros Hall. split.
  - destruct (discover_keeps st) as (Hk & _ & Hnew & _).
    apply Forall_lookup. intros ref c' Hc'.
    destruct (le_lt_dec (length (heap st)) ref) as [Hge|Hlt].
    + destruct (Hnew ref c' Hge Hc') as [Hs Hh].
      unfold snapshot_consistent. now rewrite Hs, Hh.
    + apply lookup_lt_is_Some_2 in Hlt as [c Hc].
      destruct (Hk ref c Hc) as (c2 & Hc2 & Hkept).
      assert (c2 = c') as -> by congruence.
      rewrite Forall_lookup in Hall. specialize (Hall ref c Hc).
      destruct Hkept as (_ & _ & _ & _ & Hs & _ & Hh).
      unfold snapshot_consistent in *. now rewrite Hs, Hh.
  - unfold updateSnapshots.
    destruct (polls_keep (JsMap.values (cascades st)) st)
      as (_ & _ & _ & _ & H5 & _). auto.
Qed.

Lemma snapshot_hash_stays_consistent_witness :
  Forall snapshot_consistent (heap (polls 1 polling_world)).
Proof.
  refine (proj2 (snapshot_hash_stays_consistent (R := Scripted.remote)
                   (polls 0 polling_world) _)).
  refine (proj1 (snapshot_hash_stays_consistent (R := Scripted.remote)
                   (initial (R := Scripted.remote) polling_world) _)).
  constructor.
Defined.

(** ** The routes over a well-formed registry *)

Section RouteFrame.
Context {R : Remote}.

Lemma registry_get_In st ident ref c :
  registry_wf st -> In (ident, ref) (cascades st) -> heap st !! ref = Some c ->
  registry_get st ident = Some c.
Proof.
  intros [Hnd _] Hin Hc. unfold registry_get.
  now rewrite (In_get _ _ _ Hnd Hin).
Qed.

(** Over a well-formed map, the values are the entries of the keys, one
    each and in order. *)
Lemma values_of_wf (m : JsMap.t nat) st :
  (forall ident ref, In (ident, ref) m ->
     exists c, heap st !! ref = Some c /\ cascade_id c = ident) ->
  map cascade_id (omap (fun ref => heap st !! ref) (JsMap.values m)) = JsMap.keys m /\
  Forall2 (fun c entry => heap st !! snd entry = Some c)
    (omap (fun ref => heap st !! ref) (JsMap.values m)) m.
Proof.
  induction m as [|[k r] m IH]; intros Hm; [split; [reflexivity|constructor]|].
  destruct (Hm k r (or_introl eq_refl)) as (c & Hc & Hid).
  destruct IH as [IH1 IH2]; [intros i x Hin; apply Hm; now right|].
  change (omap (fun ref => heap st !! ref) (JsMap.values ((k, r) :: m)))
    with (match heap st !! r with
          | Some c => c :: omap (fun ref => heap st !! ref) (JsMap.values m)
          | None => omap (fun ref => heap st !! ref) (JsMap.values m)
          end).
  rewrite Hc. split.
  - cbn [map JsMap.keys fst]. f_equal; [exact Hid|exact IH1].
  - constructor; [exact Hc|exact IH2].
Qed.

End RouteFrame.

(** X17. Over a well-formed registry the listings enumerate the registry:
    the list broadcast (sent to a connecting subscriber, too) and
    [GET /cascades] have one item per key, in insertion order, with the key
    as id, and they agree on title and active flag. *)
Theorem listings_enumerate_registry `{R : Remote} (st : State) :
  registry_wf st ->
  map summary_id (get_cascades st) = JsMap.keys (cascades st) /\
  exists items,
    outbox (on_connection st) = outbox st ++ [cascade_list items] /\
    map item_id items = JsMap.keys (cascades st) /\
    map (fun i => {| summary_id := item_id i; summary_title := item_title i;
                     summary_active := item_active i |}) items
    = get_cascades st.
Proof.
  intros [_ Hm].
  destruct (values_of_wf (cascades st) st Hm) as [Hids _].
  fold (registry_values st) in Hids.
  split.
  - unfold get_cascades. rewrite map_map. cbn [summary_id]. exact Hids.
  - exists (map list_item (registry_values st)). split; [reflexivity|]. split.
    + rewrite map_map. cbn [list_item item_id]. exact Hids.
    + unfold get_cascades. rewrite map_map. reflexivity.
Qed.

Lemma listings_enumerate_registry_witness :
  map summary_id (get_cascades three_entries) = [js "k1"; js "k2"; js "k3"].
Proof.
  refine (proj1 (listings_enumerate_registry (R := Scripted.remote) three_entries _)).
  split.
  - cbn. repeat (apply NoDup_cons; split; [rewrite list_elem_of_In; cbn; intuition discriminate|]).
    apply NoDup_nil_2.
  - intros k r [[= <- <-]|[[= <- <-]|[[= <- <-]|[]]]]; eexists; split; reflexivity.
Defined.

(** X18. What polling stores is what [GET /snapshot/:id] serves: after the
    poll of a registered entry captured a snapshot, the route answers 200
    under the entry's key with a snapshot whose HTML has the hash of the
    captured HTML; it is the captured snapshot itself whenever that hash
    differs from the one stored before. *)
Theorem poll_then_get_snapshot `{R : Remote}
    (st : State) (ident : jsstring) (ref : nat) (c : Cascade) (snap : Snap) (w1 : World) :
  registry_wf st ->
  In (ident, ref) (cascades st) ->
  heap st !! ref = Some c ->
  snapshot_consistent c ->
  captureHTML (cdp c) (metadata c) (world st) = (Some snap, w1) ->
  exists served,
    get_snapshot_by_id (poll_cascade ref st) ident
      = {| status := 200; body := json_snapshot served |} /\
    hashString (html served) = hashString (html snap) /\
    (snapshotHash c <> Some (hashString (html snap)) -> served = snap).
Proof.
  intros Hwf Hin Hc Hcons Hcap.
  destruct (poll_cascade_keeps ref st) as (Hcasc & _ & _ & _ & _ & _).
  assert (Hget : JsMap.get (cascades (poll_cascade ref st)) ident = Some ref).
  { rewrite Hcasc. destruct Hwf as [Hnd _]. now apply In_get. }
  pose proof (lookup_lt_Some _ _ _ Hc) as Hlt.
  unfold get_snapshot_by_id, registry_get. rewrite Hget.
  rewrite (poll_cascade_unfold _ _ _ _ _ Hc Hcap).
  destruct (decide (snapshotHash c = Some (hashString (html snap)))) as [Hh|Hh].
  - rewrite apply_capture_same by exact Hh. cbn [set_world heap]. rewrite Hc.
    unfold snapshot_consistent in Hcons. rewrite Hh in Hcons.
    destruct (snapshot c) as [old|]; [|destruct Hcons].
    exists old. split; [reflexivity|]. split; [congruence|].
    intros Hne. now destruct Hne.
  - rewrite apply_capture_changed by exact Hh. cbv zeta.
    destruct (title_changed snap _) as [t|];
      cbn [broadcast broadcastCascadeList set_heap set_world heap];
      rewrite list_lookup_insert_eq by exact Hlt;
      exists snap; auto.
Qed.

Lemma poll_then_get_snapshot_witness :
  exists served,
    get_snapshot_by_id (polls 1 polling_world) (hashString url_a)
      = {| status := 200; body := json_snapshot served |} /\
    hashString (html served) = hashString html_hello /\
    (snapshotHash entry_a <> Some (hashString html_hello) ->
     served = snap_of html_hello None).
Proof.
  refine (poll_then_get_snapshot (R := Scripted.remote) (polls 0 polling_world)
            (hashString url_a) 0 entry_a (snap_of html_hello None)
            {| Scripted.listings := []; Scripted.probes := [];
               Scripted.captures := [Captured (snap_of html_hello None);
                                     Captured (snap_of html_hello_bang None)] |}
            _ _ _ _ _).
  - apply (discover_keeps (R := Scripted.remote)
             (initial (R := Scripted.remote) polling_world)).
    split; [apply NoDup_nil_2|intros k r []].
  - vm_compute. left. reflexivity.
  - vm_compute. reflexivity.
  - exact I.
  - vm_compute. reflexivity.
Defined.

(** X19. The id-less [GET /snapshot] serves nothing that [GET /snapshot/:id]
    would not: over a well-formed registry, a snapshot it answers with is
    the one served under some key of the registry. *)
Theorem get_snapshot_is_some_entry `{R : Remote} (st : State) (snap : Snap) :
  registry_wf st ->
  get_snapshot st = {| status := 200; body := json_snapshot snap |} ->
  exists ident,
    In ident (JsMap.keys (cascades st)) /\
    get_snapshot_by_id st ident = {| status := 200; body := json_snapshot snap |}.
Proof.
  intros Hwf Hget.
  assert (Hsel : exists c, In c (registry_values st) /\ snapshot c = Some snap).
  { unfold get_snapshot, select_active in Hget.
    destruct (find _ (registry_values st)) as [c|] eqn:Ef.
    - apply find_some in Ef as [Hin _]. exists c. split; [exact Hin|].
      destruct (snapshot c); [now injection Hget as <-|discriminate Hget].
    - destruct (registry_values st) as [|c l]; [discriminate Hget|].
      cbn [head] in Hget. exists c. split; [now left|].
      destruct (snapshot c); [now injection Hget as <-|discriminate Hget]. }
  destruct Hsel as (c & Hin & Hsnap).
  destruct Hwf as [Hnd Hm].
  destruct (values_of_wf (cascades st) st Hm) as [_ Hall].
  fold (registry_values st) in Hall.
  apply list_elem_of_In, list_elem_of_lookup in Hin as [i Hi].
  destruct (Forall2_lookup_l _ _ _ _ _ Hall Hi) as ([k r] & Hkr & Hc).
  cbn [snd] in Hc.
  assert (Hinm : In (k, r) (cascades st)).
  { apply list_elem_of_In, list_elem_of_lookup. eauto. }
  destruct (Hm k r Hinm) as (c0 & Hc0 & Hid).
  exists k. split.
  - change (In k (map fst (cascades st))). apply in_map_iff. now exists (k, r).
  - unfold get_snapshot_by_id.
    rewrite (registry_get_In st k r c (conj Hnd Hm) Hinm Hc). now rewrite Hsnap.
Qed.

Lemma get_snapshot_is_some_entry_witness :
  exists ident,
    In ident (JsMap.keys (cascades three_entries)) /\
    get_snapshot_by_id three_entries ident
    = {| status := 200; body := json_snapshot (snap_of html_hello_bang None) |}.
Proof.
  refine (get_snapshot_is_some_entry (R := Scripted.remote) three_entries
            (snap_of html_hello_bang None) _ _).
  - split.
    + cbn. repeat (apply NoDup_cons; split; [rewrite list_elem_of_In; cbn; intuition discriminate|]).
      apply NoDup_nil_2.
    + intros k r [[= <- <-]|[[= <- <-]|[[= <- <-]|[]]]]; eexists; split; reflexivity.
  - reflexivity.
Defined.

(** ** Candidates, discarded connections, and the process over time *)

Section SubstringFacts.

Lemma starts_with_prefix needle hay :
  starts_with needle hay = true <-> exists after, hay = needle ++ after.
Proof.
  revert hay. induction needle as [|n needle IH]; intros hay; cbn [starts_with].
  - split; [intros _; now exists hay|reflexivity].
  - destruct hay as [|h hay].
    + split; [discriminate|]. intros [after E]. discriminate E.
    + rewrite andb_true_iff, Z.eqb_eq, IH. split.
      * intros [-> [after ->]]. now exists after.
      * intros [after E]. injection E as -> ->. split; [reflexivity|now exists after].
Qed.

Lemma includes_occurs needle hay :
  includes needle hay = true <-> occurs_in needle hay.
Proof.
  unfold occurs_in. induction hay as [|h hay IH].
  - cbn [includes]. rewrite orb_false_r, starts_with_prefix. split.
    + intros [after E]. now exists [], after.
    + intros (before & after & E). destruct before as [|b before]; [now exists after|].
      discriminate E.
  - cbn [includes]. rewrite orb_true_iff, starts_with_prefix, IH. split.
    + intros [[after E]|(before & after & E)].
      * now exists [], after.
      * exists (h :: before), after. now rewrite E.
    + intros (before & after & E). destruct before as [|b before].
      * left. now exists after.
      * right. injection E as -> ->. now exists before, after.
Qed.

End SubstringFacts.

(** X20. The candidates of a pass are workbench windows of the configured
    ports: each one carries a port of the list it was asked from, and its
    URL contains [workbench.html] or its title contains [workbench]. *)
Theorem candidates_are_workbenches `{R : Remote} (ports : list Z) (w : World) (c : Candidate) :
  In c (fst (find_targets ports w)) ->
  In (port c) ports /\
  ((exists url, target_url (target c) = Some url /\ occurs_in (js "workbench.html") url) \/
   (exists text, target_title (target c) = Some text /\ occurs_in (js "workbench") text)).
Proof.
  intros Hin. pose proof (find_targets_workbench ports w) as Hall.
  rewrite Forall_forall in Hall.
  destruct (Hall c (proj2 (list_elem_of_In _ _) Hin)) as [Hw Hp].
  split; [exact Hp|].
  unfold is_workbench in Hw. apply orb_true_iff in Hw as [Hw|Hw].
  - left. destruct (target_url (target c)) as [url|]; [|discriminate Hw].
    exists url. split; [reflexivity|]. now apply includes_occurs.
  - right. destruct (target_title (target c)) as [text|]; [|discriminate Hw].
    exists text. split; [reflexivity|]. now apply includes_occurs.
Qed.

Lemma candidates_are_workbenches_witness :
  In 9000 PORTS /\
  ((exists url, target_url (window url_a) = Some url /\ occurs_in (js "workbench.html") url) \/
   (exists text, target_title (window url_a) = Some text /\ occurs_in (js "workbench") text)).
Proof.
  refine (candidates_are_workbenches (R := Scripted.remote) PORTS steady_world
            {| target := window url_a; port := 9000 |} _).
  vm_compute. left. reflexivity.
Defined.



Section LifeFacts.
Context {R : Remote}.

Lemma post_send_state ident message st :
  heap (snd (post_send ident message st)) = heap st /\
  cascades (snd (post_send ident message st)) = cascades st /\
  sockets (snd (post_send ident message st)) = sockets st /\
  outbox (snd (post_send ident message st)) = outbox st.
Proof.
  unfold post_send. destruct (registry_get st ident) as [c|]; [|auto].
  destruct (injectMessage (cdp c) message (world st)) as [outcome w1]. auto.
Qed.

Local Abbreviation sound st :=
  (registry_wf st /\ Forall snapshot_consistent (heap st)).

Lemma handle_sound e st : sound st -> sound (handle e st).
Proof.
  intros [Hwf Hcons]. destruct e as [| | |ident message]; cbn [handle].
  - split; [now apply (discover_keeps st)|].
    destruct (discover_keeps st) as (Hk & _ & Hnew & _).
    apply Forall_lookup. intros ref c' Hc'.
    destruct (le_lt_dec (length (heap st)) ref) as [Hge|Hlt].
    + destruct (Hnew ref c' Hge Hc') as [Hs Hh].
      unfold snapshot_consistent. now rewrite Hs, Hh.
    + apply lookup_lt_is_Some_2 in Hlt as [c Hc].
      destruct (Hk ref c Hc) as (c2 & Hc2 & Hkept).
      assert (c2 = c') as -> by congruence.
      rewrite Forall_lookup in Hcons. specialize (Hcons ref c Hc).
      destruct Hkept as (_ & _ & _ & _ & Hs & _ & Hh).
      unfold snapshot_consistent in *. now rewrite Hs, Hh.
  - unfold updateSnapshots.
    destruct (polls_keep (JsMap.values (cascades st)) st)
      as (H1 & _ & H3 & _ & H5 & _).
    split; [|auto].
    destruct Hwf as [Hnd Hm]. unfold registry_wf, map_wf. rewrite H1.
    split; [exact Hnd|]. intros k r Hin.
    destruct (Hm k r Hin) as (c & Hc & Hid).
    destruct (H3 r c Hc) as (c' & Hc' & Hk & _).
    exists c'. split; [exact Hc'|congruence].
  - split; [exact Hwf|exact Hcons].
  - destruct (post_send_state ident message st) as (Hh & Hc & _ & _).
    unfold registry_wf, map_wf. rewrite Hh, Hc. split; [exact Hwf|exact Hcons].
Qed.

End LifeFacts.

(** X22. Whatever happens to the process (discovery ticks, polling ticks,
    subscribers connecting, send requests, in any order and number), from
    its start the registry stays well formed and every entry's stored hash
    is the hash of its stored snapshot; so every key that
    [GET /snapshot/:id] and [POST /send/:id] look up leads to the entry
    with that id. *)
Theorem process_invariant `{R : Remote} (events : list Event) (w : World) :
  let st := after events (initial w) in
  registry_wf st /\
  Forall snapshot_consistent (heap st) /\
  forall ident c, registry_get st ident = Some c -> cascade_id c = ident.
Proof.
  cbv zeta.
  assert (H : forall st, (registry_wf st /\ Forall snapshot_consistent (heap st)) ->
                         registry_wf (after events st) /\
                         Forall snapshot_consistent (heap (after events st))).
  { unfold after. induction events as [|e events IH]; intros st Hs; [exact Hs|].
    cbn [fold_left]. apply IH, handle_sound, Hs. }
  destruct (H (initial w)) as [Hwf Hcons].
  { split; [|constructor]. split; [apply NoDup_nil_2|intros k r []]. }
  split; [exact Hwf|]. split; [exact Hcons|].
  intros ident c Hget. unfold registry_get in Hget.
  destruct (JsMap.get (cascades (after events (initial w))) ident) as [ref|] eqn:Eg;
    [|discriminate Hget].
  destruct Hwf as [_ Hm].
  destruct (Hm ident ref (get_In _ _ _ Eg)) as (c0 & Hc0 & Hid). congruence.
Qed.

Lemma process_invariant_witness :
  cascade_id (store_snapshot entry_a (snap_of html_hello None) (hashString html_hello))
  = hashString url_a.
Proof.
  refine (proj2 (proj2 (process_invariant (R := Scripted.remote)
                          [tick_discover; tick_poll] polling_world))
            (hashString url_a) _ _).
  vm_compute. reflexivity.
Defined.

(** X23. A list that a discovery pass broadcasts shows the registry as the
    pass leaves it: over a well-formed registry, when the pass changes the
    number of entries, the message it adds is one list with one item per
    key of the new registry, in insertion order, under the key as id. *)
Theorem discover_broadcast_lists_registry `{R : Remote} (st : State) :
  registry_wf st ->
  JsMap.size (cascades st) <> JsMap.size (cascades (discover st)) ->
  exists items,
    outbox (discover st) = outbox st ++ [cascade_list items] /\
    map item_id items = JsMap.keys (cascades (discover st)).
Proof.
  intros Hwf Hsize.
  pose proof (discover_traced_ok st) as H. cbv zeta in H.
  destruct H as (_ & _ & _ & Hout). fold (discover st) in Hout.
  apply Nat.eqb_neq in Hsize. rewrite Hsize in Hout.
  exists (map list_item (registry_values (discover st))). split; [exact Hout|].
  destruct (discover_keeps st) as (_ & _ & _ & _ & _ & Hwf' & _).
  destruct (Hwf' Hwf) as [_ Hm].
  destruct (values_of_wf (cascades (discover st)) (discover st) Hm) as [Hids _].
  fold (registry_values (discover st)) in Hids.
  rewrite map_map. cbn [list_item item_id]. exact Hids.
Qed.

Lemma discover_broadcast_lists_registry_witness :
  exists items,
    outbox (first_pass steady_world) = [] ++ [cascade_list items] /\
    map item_id items = JsMap.keys (cascades (first_pass steady_world)).
Proof.
  refine (discover_broadcast_lists_registry (R := Scripted.remote)
            (initial (R := Scripted.remote) steady_world) _ _).
  - split; [apply NoDup_nil_2|intros k r []].
  - vm_compute. discriminate.
Defined.

Section ExtractFacts.
Context {R : Remote}.

Lemma scan_contexts_known sock ctxs w meta :
  fst (scan_contexts sock ctxs w) = Some meta ->
  In (contextId meta) (map ctx_id ctxs).
Proof.
  intros Hs. pose proof (scan_contexts_outcome sock ctxs w) as Ho.
  rewrite Hs in Ho. destruct Ho as (before & ctx & after & w1 & -> & _ & _ & Hid).
  rewrite map_app. apply in_or_app. right. left. now rewrite Hid.
Qed.

End ExtractFacts.

(** X24. [extractMetadata] never invents a context and never sets the
    cache: a result names the cached context or one of the known contexts;
    the session keeps its socket and its context list, and its cached id is
    left as it was or cleared; without a usable cached id the session is
    unchanged and the result is that of the scan of the known contexts. *)
Theorem extractMetadata_stays_in_session `{R : Remote} (cdp : CDP) (w : World) :
  let res := fst (fst (extractMetadata cdp w)) in
  let cdp' := snd (fst (extractMetadata cdp w)) in
  let w' := snd (extractMetadata cdp w) in
  ws cdp' = ws cdp /\
  contexts cdp' = contexts cdp /\
  (rootContextId cdp' = rootContextId cdp \/ rootContextId cdp' = None) /\
  (forall meta, res = Some meta ->
     truthy_id (rootContextId cdp) = Some (contextId meta) \/
     In (contextId meta) (map ctx_id (contexts cdp))) /\
  (truthy_id (rootContextId cdp) = None ->
     cdp' = cdp /\ scan_outcome (ws cdp) (contexts cdp) w res w').
Proof.
  cbv zeta. unfold extractMetadata.
  destruct (truthy_id (rootContextId cdp)) as [cached|] eqn:Et.
  - destruct (evaluate_metadata w (ws cdp) cached) as [[v| |] w1].
    + cbn [fst snd]. split; [reflexivity|]. split; [reflexivity|].
      split; [now left|]. split; [|discriminate].
      intros meta [= <-]. now left.
    + pose proof (scan_contexts_known (ws cdp) (contexts cdp) w1) as Hk.
      destruct (scan_contexts (ws cdp) (contexts cdp) w1) as [res w2].
      cbn [fst snd] in *. split; [reflexivity|]. split; [reflexivity|].
      split; [now left|]. split; [|discriminate].
      intros meta ->. right. now apply Hk.
    + cbn [set_rootContextId ws contexts].
      pose proof (scan_contexts_known (ws cdp) (contexts cdp) w1) as Hk.
      destruct (scan_contexts (ws cdp) (contexts cdp) w1) as [res w2].
      cbn [fst snd ws contexts rootContextId] in *.
      split; [reflexivity|]. split; [reflexivity|].
      split; [now right|]. split; [|discriminate].
      intros meta ->. right. now apply Hk.
  - pose proof (scan_contexts_known (ws cdp) (contexts cdp) w) as Hk.
    pose proof (scan_contexts_outcome (ws cdp) (contexts cdp) w) as Ho.
    destruct (scan_contexts (ws cdp) (contexts cdp) w) as [res w1].
    cbn [fst snd] in *. split; [reflexivity|]. split; [reflexivity|].
    split; [now left|]. split; [|auto].
    intros meta ->. right. now apply Hk.
Qed.

Lemma extractMetadata_stays_in_session_witness :
  truthy_id (rootContextId stale_session) = Some 5 \/
  In 5 (map ctx_id (contexts stale_session)).
Proof.
  refine (proj1 (proj2 (proj2 (proj2
            (extractMetadata_stays_in_session (R := Scripted.remote)
               stale_session stale_world))))
            {| meta_value := chat_found; contextId := 5 |} _).
  reflexivity.
Defined.
